(** * validateoptions: the validation engine and the requirement combinators

    Shallow embedding of [src/validateoptions.js].

    The file has two parts.

    - Part I models [validateOptions], [getTypeOf] and the
      [RequirementError] constructor.  The engine only reads its arguments,
      so JavaScript values are modelled as trees, the options object as a
      finite map, and the requirements object as the list of its entries in
      [for ... in] order.  Calls to the caller-supplied [map] and [ok]
      functions are logged, so that statements about a function being
      invoked (or not) can be made.

    - Part II models [findTypes], [required], [optional], [either],
      [merge] and [union] over an explicit store of objects and arrays,
      because what these functions allocate and what they leave untouched
      is part of what is specified about them.

    What the model leaves out:

    - an object is the map of the properties that [in] and a property read
      see on it; properties have string keys and are plain data properties
      (writable, configurable, no accessors);
    - numbers are integers;
    - [options] is an object or falsy; in a requirement, [map] is missing or
      a function that returns or throws, [ok] is missing or a function that
      returns, [is] is missing, an array of strings or a requirement
      object, and [msg] is missing or a string. *)

From stdpp Require Import gmap strings list pretty.

Set Warnings "-register-all,-clear-no-such-hyp".

Open Scope Z_scope.

(** ** Part I: JavaScript values as seen by the engine *)

Inductive value : Type :=
| VUndefined
| VNull
| VBoolean (b : bool)
| VNumber (n : Z)
| VString (s : string)
| VSymbol (description : string)
| VFunction (name : string)
| VArray (elems : list value)
| VRegExp (source : string)
| VObject (props : list (string * value)).

(** What a [throw] can carry.  [err instanceof RequirementError] holds for
    the first constructor only. *)
Inductive thrown : Type :=
| RequirementErrorObj (message : string)
| ErrorObj (message : string)
| TypeErrorObj (message : string)
| ThrownValue (v : value).

Inductive completion (A : Type) : Type :=
| Normal (a : A)
| Throw (e : thrown).
Arguments Normal {A} a.
Arguments Throw {A} e.

Definition instanceofRequirementError (err : thrown) : bool :=
  match err with
  | RequirementErrorObj _ => true
  | _ => false
  end.

(** A requirement object.  [dflt] is [None] when ['dflt' in req] is false,
    [msg] when the property is missing, and [map], [is] and [ok] when the
    property is missing or falsy.  [is] holds either an array of type names
    or another requirement object. *)
Inductive requirement : Type :=
| Requirement (dflt : option value)
              (map : option (value -> completion value))
              (is_ : option is_decl)
              (ok : option (value -> value))
              (msg : option string)
with is_decl : Type :=
| TypeNames (names : list string)
| Nested (r : requirement).

Definition req_dflt (r : requirement) : option value :=
  let 'Requirement dflt _ _ _ _ := r in dflt.
Definition req_map (r : requirement) : option (value -> completion value) :=
  let 'Requirement _ map _ _ _ := r in map.
Definition req_is (r : requirement) : option is_decl :=
  let 'Requirement _ _ is_ _ _ := r in is_.
Definition req_ok (r : requirement) : option (value -> value) :=
  let 'Requirement _ _ _ ok _ := r in ok.
Definition req_msg (r : requirement) : option string :=
  let 'Requirement _ _ _ _ msg := r in msg.

(** ToBoolean *)
Definition truthy (v : value) : bool :=
  match v with
  | VUndefined | VNull => false
  | VBoolean b => b
  | VNumber n => negb (n =? 0)
  | VString s => negb (String.eqb s "")
  | _ => true
  end.

Definition truthy_string (s : option string) : bool :=
  match s with
  | Some s => negb (String.eqb s "")
  | None => false
  end.

(** [x === undefined] and [x != null] *)
Definition is_undefined (v : value) : bool :=
  match v with VUndefined => true | _ => false end.

Definition not_nullish (v : value) : bool :=
  match v with VUndefined | VNull => false | _ => true end.

(** [Array.prototype.indexOf]: position of the first element strictly
    equal to [x], or -1. *)
Fixpoint indexOf_from {A} `{EqDecision A} (l : list A) (x : A) (i : Z) : Z :=
  match l with
  | [] => -1
  | y :: l' => if decide (y = x) then i else indexOf_from l' x (i + 1)
  end.

Definition indexOf {A} `{EqDecision A} (l : list A) (x : A) : Z :=
  indexOf_from l x 0.

(** [!!~n] and [!~n] for an integer [n] *)
Definition bitnot_truthy (n : Z) : bool := negb (Z.lnot n =? 0).

(** The possible return values of getTypeOf. *)
Definition VALID_TYPES : list string :=
  [ "array"; "boolean"; "function"; "null"; "number";
    "object"; "regexp"; "string"; "symbol"; "undefined" ].

Definition typeof (v : value) : string :=
  match v with
  | VUndefined => "undefined"
  | VBoolean _ => "boolean"
  | VNumber _ => "number"
  | VString _ => "string"
  | VSymbol _ => "symbol"
  | VFunction _ => "function"
  | VNull | VArray _ | VRegExp _ | VObject _ => "object"
  end.

Definition isArray (v : value) : bool :=
  match v with VArray _ => true | _ => false end.

Definition instanceofRegExp (v : value) : bool :=
  match v with VRegExp _ => true | _ => false end.

Definition getTypeOf (value : value) : string :=
  let type := typeof value in
  if String.eqb type "object" then
    if negb (truthy value) then "null"
    else if isArray value then "array"
    else if instanceofRegExp value then "regexp"
    else type
  else type.

(** One double-quote character. *)
Definition dq : string := String (Ascii.ascii_of_nat 34) EmptyString.

(** [new RequirementError(key, requirement)].  The constructor itself can
    fail: when [msg] is falsy and [is] is a requirement object rather than
    an array, [requirement.is.join] is not a function. *)
Definition RequirementError (key : string) (requirement : requirement)
  : completion thrown :=
  if truthy_string (req_msg requirement) then
    Normal (RequirementErrorObj (default "" (req_msg requirement)))
  else
    let msg := "The option " +:+ dq +:+ key +:+ dq +:+ " " in
    match req_is requirement with
    | Some (TypeNames names) =>
        Normal (RequirementErrorObj
                  (msg +:+ "must be one of the following types: "
                       +:+ String.concat ", " names))
    | Some (Nested _) =>
        Throw (TypeErrorObj "requirement.is.join is not a function")
    | None => Normal (RequirementErrorObj (msg +:+ "is invalid."))
    end.

(** ** The engine, with a log of the calls to [map] and [ok] *)

Inductive event : Type :=
| MapCalled (key : string) (arg : value)
| OkCalled (key : string) (arg : value).

Definition M (A : Type) : Type := (list event * completion A)%type.

Definition raise {A} (e : thrown) : M A := ([], Throw e).

Definition log (e : event) : M unit := ([e], Normal tt).

Definition lift {A} (c : completion A) : M A := ([], c).

#[export] Instance M_ret : MRet M := fun A a => ([], Normal a).

#[export] Instance M_bind : MBind M := fun A B k m =>
  match m with
  | (t, Normal a) => let '(t', r) := k a in (t ++ t', r)
  | (t, Throw e) => (t, Throw e)
  end.

Definition events {A} (m : M A) : list event := fst m.
Definition outcome {A} (m : M A) : completion A := snd m.

(** [throw new RequirementError(key, req)] *)
Definition throwRequirementError {A} (key : string) (req : requirement) : M A :=
  match RequirementError key req with
  | Normal err => raise err
  | Throw e => raise e
  end.

(** Lines 64-70: the value looked up and the default.  Returns the value
    and [keyInOpts]. *)
Definition applyDefault (options : gmap string value) (key : string)
    (req : requirement) : value * bool :=
  let keyInOpts := bool_decide (is_Some (options !! key)) in
  let optsVal := default VUndefined (options !! key) in
  match req_dflt req with
  | Some d => if is_undefined optsVal then (d, true) else (optsVal, keyInOpts)
  | None => (optsVal, keyInOpts)
  end.

(** Lines 72-82: the transform.  Returns the value and [mapThrew]. *)
Definition applyMap (key : string) (req : requirement) (optsVal : value)
  : M (value * bool) :=
  match req_map req with
  | Some f =>
      _ ← log (MapCalled key optsVal);
      match f optsVal with
      | Normal v => mret (v, false)
      | Throw err =>
          if instanceofRequirementError err then raise err
          else mret (optsVal, true)
      end
  | None => mret (optsVal, false)
  end.

(** Lines 85-91: the array the engine checks against, if it finds one. *)
Definition engineTypes (types : is_decl) : option (list string) :=
  match types with
  | TypeNames names => Some names
  | Nested r =>
      match req_is r with
      | Some (TypeNames names) => Some names
      | _ => None
      end
  end.

Definition internalError (type : string) : thrown :=
  ErrorObj ("Internal error: invalid requirement type "
              +:+ dq +:+ type +:+ dq +:+ ".").

(** Lines 95-99 *)
Fixpoint checkTypeNames (types : list string) : completion unit :=
  match types with
  | [] => Normal tt
  | type :: rest =>
      if negb (bitnot_truthy (indexOf VALID_TYPES type)) then
        Throw (internalError type)
      else checkTypeNames rest
  end.

(** Lines 84-105.  Returns [isOptional]. *)
Definition checkIs (key : string) (req : requirement) (optsVal : value)
  : M bool :=
  match req_is req with
  | Some declared =>
      match engineTypes declared with
      | Some types =>
          let isOptional :=
            forallb (fun v => bitnot_truthy (indexOf types v))
                    ["undefined"; "null"] in
          _ ← lift (checkTypeNames types);
          if indexOf types (getTypeOf optsVal) <? 0 then
            throwRequirementError key req
          else mret isOptional
      | None => mret false
      end
  | None => mret false
  end.

(** Lines 107-109 *)
Definition checkOk (key : string) (req : requirement) (isOptional : bool)
    (optsVal : value) : M unit :=
  match req_ok req with
  | Some ok =>
      if negb isOptional || not_nullish optsVal then
        _ ← log (OkCalled key optsVal);
        if negb (truthy (ok optsVal)) then throwRequirementError key req
        else mret tt
      else mret tt
  | None => mret tt
  end.

(** The body of the loop, for one key.  [Some v] stands for
    [validatedOptions[key] = v], [None] for leaving the key out. *)
Definition validateKey (options : gmap string value) (key : string)
    (req : requirement) : M (option value) :=
  let '(optsVal, keyInOpts) := applyDefault options key req in
  '(optsVal, mapThrew) ← applyMap key req optsVal;
  isOptional ← checkIs key req optsVal;
  _ ← checkOk key req isOptional optsVal;
  if keyInOpts
     || (bool_decide (is_Some (req_map req)) && negb mapThrew
         && negb (is_undefined optsVal))
  then mret (Some optsVal)
  else mret None.

Definition assign (key : string) (r : option value)
    (validatedOptions : gmap string value) : gmap string value :=
  match r with
  | Some v => <[key := v]> validatedOptions
  | None => validatedOptions
  end.

Fixpoint validateLoop (options : gmap string value)
    (requirements : list (string * requirement))
    (validatedOptions : gmap string value) : M (gmap string value) :=
  match requirements with
  | [] => mret validatedOptions
  | (key, req) :: rest =>
      r ← validateKey options key req;
      validateLoop options rest (assign key r validatedOptions)
  end.

(** [options] is [None] for [null] or any other falsy argument. *)
Definition validateOptions (options : option (gmap string value))
    (requirements : list (string * requirement)) : M (gmap string value) :=
  validateLoop (default ∅ options) requirements ∅.

(** The exported requirements [string], [number], [boolean], [object] and
    [array] (lines 154-158). *)
Definition exports_string : requirement :=
  Requirement None None (Some (TypeNames ["string"; "undefined"; "null"])) None None.
Definition exports_number : requirement :=
  Requirement None None (Some (TypeNames ["number"; "undefined"; "null"])) None None.
Definition exports_boolean : requirement :=
  Requirement None None (Some (TypeNames ["boolean"; "undefined"; "null"])) None None.
Definition exports_object : requirement :=
  Requirement None None (Some (TypeNames ["object"; "undefined"; "null"])) None None.
Definition exports_array : requirement :=
  Requirement None None (Some (TypeNames ["array"; "undefined"; "null"])) None None.

(** The same requirement with its [map] property removed. *)
Definition withoutMap (r : requirement) : requirement :=
  let 'Requirement dflt _ is_ ok msg := r in Requirement dflt None is_ ok msg.

(** ** Part II: the combinators over a store

    Objects and arrays live in cells of a store; a value is a primitive or
    a reference to a cell.  A location is the index of its cell, and
    allocation appends a cell, so the locations of a store [h] are the
    numbers below [length h].  Property maps hold data properties with
    string keys.  Functions are opaque tokens. *)

Definition loc := nat.

Inductive sval : Type :=
| SUndefined
| SNull
| SBoolean (b : bool)
| SNumber (n : Z)
| SString (s : string)
| SFunction (name : string)
| SRef (l : loc).

#[export] Instance sval_eq_dec : EqDecision sval.
Proof. solve_decision. Defined.

Inductive cell : Type :=
| CArray (elems : list sval)
| CObject (props : gmap string sval).

Abbreviation store := (list cell).

(** A computation over the store ends normally, throws, or is [None] when
    it leaves what is modelled here (the loop of [findTypes] running out of
    fuel, a dangling reference, a callback or a conversion of the host that
    the model does not cover). *)
Definition St (A : Type) : Type := store → option (store * completion A).

#[export] Instance St_ret : MRet St := λ A a h, Some (h, Normal a).

#[export] Instance St_bind : MBind St := λ A B k m h,
  match m h with
  | Some (h1, Normal a) => k a h1
  | Some (h1, Throw e) => Some (h1, Throw e)
  | None => None
  end.

Definition typeError {A} (message : string) : St A :=
  λ h, Some (h, Throw (TypeErrorObj message)).

Definition unmodelled {A} : St A := λ _, None.

Definition alloc (c : cell) : St loc :=
  λ h, Some (h ++ [c], Normal (length h)).

Definition read (l : loc) : St cell :=
  λ h, match h !! l with
       | Some c => Some (h, Normal c)
       | None => None
       end.

Definition write (l : loc) (c : cell) : St unit :=
  λ h, if decide (l < length h)%nat then Some (<[l := c]> h, Normal tt)
       else None.

(** ToBoolean *)
Definition truthy_s (v : sval) : bool :=
  match v with
  | SUndefined | SNull => false
  | SBoolean b => b
  | SNumber n => negb (n =? 0)
  | SString s => negb (String.eqb s "")
  | SFunction _ | SRef _ => true
  end.

(** [Array.isArray(v)] *)
Definition isArray_s (v : sval) : St bool :=
  match v with
  | SRef l =>
      c ← read l;
      mret (match c with CArray _ => true | CObject _ => false end)
  | _ => mret false
  end.

(** [v.is] *)
Definition get_is (v : sval) : St sval :=
  match v with
  | SUndefined | SNull =>
      typeError "Cannot read properties of undefined or null"
  | SRef l =>
      c ← read l;
      mret (match c with
            | CObject props => default SUndefined (props !! "is")
            | CArray _ => SUndefined
            end)
  | _ => mret SUndefined
  end.

Definition isTruthyType (type : sval) : bool :=
  negb (bool_decide (type = SString "undefined")
        || bool_decide (type = SString "null")).

(** [while (!Array.isArray(v) && v.is) v = v.is; return v;]
    One unit of fuel pays for one evaluation of the loop condition. *)
Fixpoint findTypes (fuel : nat) (v : sval) : St sval :=
  match fuel with
  | O => unmodelled
  | S fuel' =>
      a ← isArray_s v;
      if a : bool then mret v
      else
        i ← get_is v;
        if truthy_s i then findTypes fuel' i else mret v
  end.

(** [v.filter(isTruthyType)] *)
Definition filter_isTruthyType (v : sval) : St sval :=
  match v with
  | SUndefined | SNull =>
      typeError "Cannot read properties of undefined or null"
  | SRef l =>
      c ← read l;
      match c with
      | CArray elems =>
          l' ← alloc (CArray (List.filter isTruthyType elems));
          mret (SRef l')
      | CObject props =>
          match props !! "filter" with
          | None => typeError "filter is not a function"
          | Some _ => unmodelled
          end
      end
  | _ => typeError "filter is not a function"
  end.

(** One argument of [concat], or its receiver: the elements of an array,
    anything else as such. *)
Definition spread (v : sval) : St (list sval) :=
  match v with
  | SRef l =>
      c ← read l;
      mret (match c with CArray elems => elems | CObject _ => [v] end)
  | _ => mret [v]
  end.

(** [Array.prototype.concat] called on [this] with [args].  A primitive
    receiver would be wrapped into an object of its own, which is not
    modelled. *)
Definition concat (this : sval) (args : list sval) : St sval :=
  match this with
  | SUndefined | SNull =>
      typeError "Array.prototype.concat called on null or undefined"
  | SRef _ =>
      parts ← mapM spread (this :: args);
      l' ← alloc (CArray (List.concat parts));
      mret (SRef l')
  | _ => unmodelled
  end.

(** The own properties of a value, as [Object.getOwnPropertyNames] and
    [Object.getOwnPropertyDescriptor] give them. *)
Definition indexed (elems : list sval) : gmap string sval :=
  <["length" := SNumber (Z.of_nat (length elems))]>
    (list_to_map (imap (λ i x, (pretty i, x)) elems)).

Definition characters (s : string) : list sval :=
  (λ c, SString (String c EmptyString)) <$> String.list_ascii_of_string s.

Definition ownProperties (props : sval) : St (gmap string sval) :=
  match props with
  | SRef l =>
      c ← read l;
      mret (match c with
            | CObject pm => pm
            | CArray elems => indexed elems
            end)
  | SString s => mret (indexed (characters s))
  | SFunction _ => unmodelled
  | _ => mret ∅
  end.

(** [merge(source, ...properties)]: the descriptors are collected from left
    to right, a later one replacing an earlier one of the same name, and
    then defined on [source]. *)
Fixpoint collect (properties : list sval) (descriptor : gmap string sval)
  : St (gmap string sval) :=
  match properties with
  | [] => mret descriptor
  | props :: rest =>
      own ← ownProperties props;
      collect rest (own ∪ descriptor)
  end.

Definition defineProperties (source : sval) (descriptor : gmap string sval)
  : St sval :=
  match source with
  | SRef l =>
      c ← read l;
      match c with
      | CObject pm => _ ← write l (CObject (descriptor ∪ pm)); mret source
      | CArray _ => unmodelled
      end
  | _ => typeError "Object.defineProperties called on non-object"
  end.

Definition merge (source : sval) (properties : list sval) : St sval :=
  descriptor ← collect (List.filter truthy_s properties) ∅;
  defineProperties source descriptor.

(** [CreateListFromArrayLike], as [Function.prototype.apply] uses it on its
    second argument. *)
Definition argumentsList (argArray : sval) : St (list sval) :=
  match argArray with
  | SUndefined | SNull => mret []
  | SRef l =>
      c ← read l;
      match c with
      | CArray elems => mret elems
      | CObject pm =>
          match pm !! "length" with
          | None => mret []
          | Some _ => unmodelled
          end
      end
  | SFunction _ => unmodelled
  | _ => typeError "CreateListFromArrayLike called on non-object"
  end.

(** [[].concat.apply(...arrays)]: the first of [arrays] is the receiver,
    the second is the argument list, the others are ignored by [apply]. *)
Definition concatApply (arrays : list sval) : St sval :=
  _ ← alloc (CArray []);
  match arrays with
  | [] => concat SUndefined []
  | this :: rest =>
      args ← match rest with
             | [] => mret []
             | argArray :: _ => argumentsList argArray
             end;
      concat this args
  end.

(** The callback of [reduce]: [result] is the array accumulated so far. *)
Definition pushNew (result : loc) (item : sval) : St unit :=
  c ← read result;
  match c with
  | CArray elems =>
      if negb (bitnot_truthy (indexOf elems item)) then
        write result (CArray (elems ++ [item]))
      else mret tt
  | CObject _ => unmodelled
  end.

Fixpoint reduce (items : list sval) (result : loc) : St unit :=
  match items with
  | [] => mret tt
  | item :: rest => _ ← pushNew result item; reduce rest result
  end.

Definition union (arrays : list sval) : St sval :=
  combined ← concatApply arrays;
  items ← spread combined;
  result ← alloc (CArray []);
  _ ← reduce items result;
  mret (SRef result).

(** [VALID_TYPES] is only read, and only here: its contents stand for the
    array. *)
Definition required (fuel : nat) (req : sval) : St sval :=
  found ← findTypes fuel req;
  types ← (if truthy_s found then filter_isTruthyType found
           else l ← alloc (CArray (List.filter isTruthyType
                                     (SString <$> VALID_TYPES)));
                mret (SRef l));
  target ← alloc (CObject ∅);
  last ← alloc (CObject {[ "is" := types ]});
  merge (SRef target) [req; SRef last].

Definition set_is (obj : sval) (v : sval) : St unit :=
  match obj with
  | SRef l =>
      c ← read l;
      match c with
      | CObject pm => write l (CObject (<["is" := v]> pm))
      | CArray _ => unmodelled
      end
  | _ => unmodelled
  end.

Definition optional (fuel : nat) (req : sval) : St sval :=
  empty ← alloc (CArray []);
  target ← alloc (CObject {[ "is" := SRef empty ]});
  req ← merge (SRef target) [req];
  found ← findTypes fuel req;
  kept ← filter_isTruthyType found;
  types ← concat kept [SString "undefined"; SString "null"];
  _ ← set_is req types;
  mret req.

Definition either (fuel : nat) (types : list sval) : St sval :=
  arrays ← mapM (findTypes fuel) types;
  union arrays.

(** What a caller can read back: the array of type names of a result,
    which is the result itself for [either] and the [is] property of the
    result for [required] and [optional]. *)
Definition arrayAt (h : store) (v : sval) : option (loc * list sval) :=
  match v with
  | SRef a =>
      match h !! a with
      | Some (CArray elems) => Some (a, elems)
      | _ => None
      end
  | _ => None
  end.

Definition propertiesAt (h : store) (v : sval) : option (gmap string sval) :=
  match v with
  | SRef o =>
      match h !! o with
      | Some (CObject pm) => Some pm
      | _ => None
      end
  | _ => None
  end.

Definition typesOf (h : store) (v : sval) : option (loc * list sval) :=
  match arrayAt h v with
  | Some r => Some r
  | None => pm ← propertiesAt h v; is_ ← pm !! "is"; arrayAt h is_
  end.

(** ** Predicates for stating what a computation does to the store *)

(** [grows n h h']: the store [h'] has at least the cells of [h], and the
    cells below [n] are the same in both. *)
Definition grows (n : nat) (h h' : store) : Prop :=
  (length h ≤ length h')%nat ∧ ∀ l, (l < n)%nat → h' !! l = h !! l.

(** [keeps n m Q]: run from a store with at least [n] cells, [m] leaves the
    cells below [n] as they are, whether it returns or throws, and what it
    returns satisfies [Q]. *)
Definition keeps {A} (n : nat) (m : St A) (Q : A → Prop) : Prop :=
  ∀ h h' r, (n ≤ length h)%nat → m h = Some (h', r) →
            grows n h h' ∧ ∀ a, r = Normal a → Q a.

(** [readonly m]: [m] leaves the store as it is. *)
Definition readonly {A} (m : St A) : Prop :=
  ∀ h h' r, m h = Some (h', r) → h' = h.

(** The array [reduce] leaves: the items in order, each one added unless
    it is there already. *)
Definition addNew (elems : list sval) (item : sval) : list sval :=
  if negb (bitnot_truthy (indexOf elems item)) then elems ++ [item] else elems.

(** [resolves h v n a]: in the store [h], following [.is] from [v] leads
    through [n] objects to the array at [a]. *)
Inductive resolves (h : store) : sval → nat → loc → Prop :=
| resolves_array a elems :
    h !! a = Some (CArray elems) → resolves h (SRef a) 0 a
| resolves_is o pm i n a :
    h !! o = Some (CObject pm) → pm !! "is" = Some i →
    resolves h i n a → resolves h (SRef o) (S n) a.

(** ** The scenarios of the test suite, run on the model *)

Example testValidateOptionsEmpty :
  validateOptions None [] = ([], Normal ∅)
  ∧ validateOptions None [("foo", Requirement None None None None None)]
    = ([], Normal ∅)
  ∧ validateOptions (Some ∅) [("foo", Requirement None None None None None)]
    = ([], Normal ∅).
Proof. done. Qed.

Example testValidateOptionsNonempty :
  outcome (validateOptions (Some {[ "foo" := VNumber 123; "bar" := VNumber 456 ]})
             [("foo", Requirement None None None None None);
              ("bar", Requirement None None None None None);
              ("baz", Requirement None None None None None)])
  = Normal {[ "foo" := VNumber 123; "bar" := VNumber 456 ]}
  ∧ outcome (validateOptions (Some {[ "foo" := VNumber 123 ]}) []) = Normal ∅.
Proof. split; by vm_compute. Qed.

Example testValidateOptionsMap :
  outcome (validateOptions (Some {[ "foo" := VNumber 3; "bar" := VNumber 2 ]})
             [("foo", Requirement None
                        (Some (λ v, match v with
                                    | VNumber n => Normal (VNumber (n * n))
                                    | _ => Normal VUndefined
                                    end)) None None None);
              ("bar", Requirement None (Some (λ _, Normal VUndefined))
                        None None None)])
  = Normal {[ "foo" := VNumber 9; "bar" := VUndefined ]}.
Proof. by vm_compute. Qed.

Example testValidateOptionsMapException :
  validateOptions (Some {[ "foo" := VNumber 3 ]})
    [("foo", Requirement None (Some (λ _, Throw (ErrorObj ""))) None None None)]
  = ([MapCalled "foo" (VNumber 3)], Normal {[ "foo" := VNumber 3 ]}).
Proof. by vm_compute. Qed.

Example testValidateOptionsOk :
  outcome (validateOptions (Some {[ "foo" := VNumber 2; "bar" := VNumber 2 ]})
             [("bar", Requirement None None None
                        (Some (λ v, match v with
                                    | VNumber n => VBoolean (2 <? n)
                                    | _ => VBoolean false
                                    end)) None)])
  = Throw (RequirementErrorObj
             (("The option " +:+ dq +:+ "bar" +:+ dq +:+ " ") +:+ "is invalid."))
  ∧ outcome (validateOptions None
               [("foo", Requirement None None None (Some (λ v, v)) None)])
    = Throw (RequirementErrorObj
               (("The option " +:+ dq +:+ "foo" +:+ dq +:+ " ") +:+ "is invalid.")).
Proof. split; by vm_compute. Qed.

Example testValidateOptionsIs :
  outcome (validateOptions
             (Some {[ "array" := VArray []; "boolean" := VBoolean true;
                      "func" := VFunction "f"; "nul" := VNull;
                      "number" := VNumber 1337; "object" := VObject [];
                      "string" := VString "foo"; "undef1" := VUndefined ]})
             [("array", Requirement None None (Some (TypeNames ["array"])) None None);
              ("boolean", Requirement None None (Some (TypeNames ["boolean"])) None None);
              ("func", Requirement None None (Some (TypeNames ["function"])) None None);
              ("nul", Requirement None None (Some (TypeNames ["null"])) None None);
              ("number", Requirement None None (Some (TypeNames ["number"])) None None);
              ("object", Requirement None None (Some (TypeNames ["object"])) None None);
              ("string", Requirement None None (Some (TypeNames ["string"])) None None);
              ("undef1", Requirement None None (Some (TypeNames ["undefined"])) None None);
              ("undef2", Requirement None None (Some (TypeNames ["undefined"])) None None)])
  = Normal {[ "array" := VArray []; "boolean" := VBoolean true;
              "func" := VFunction "f"; "nul" := VNull;
              "number" := VNumber 1337; "object" := VObject [];
              "string" := VString "foo"; "undef1" := VUndefined ]}
  ∧ outcome (validateOptions None
               [("foo", Requirement None None
                          (Some (TypeNames ["object"; "number"])) None None)])
    = Throw (RequirementErrorObj
               (("The option " +:+ dq +:+ "foo" +:+ dq +:+ " ")
                  +:+ "must be one of the following types: " +:+ "object, number")).
Proof. split; by vm_compute. Qed.

Example testValidateOptionsIsWithExportedValue :
  outcome (validateOptions
             (Some {[ "boolean" := VBoolean true; "number" := VNumber 1337;
                      "object" := VObject []; "string" := VString "foo" ]})
             [("string", Requirement None None (Some (Nested exports_string)) None None);
              ("number", Requirement None None (Some (Nested exports_number)) None None);
              ("boolean", Requirement None None (Some (Nested exports_boolean)) None None);
              ("object", Requirement None None (Some (Nested exports_object)) None None)])
  = Normal {[ "boolean" := VBoolean true; "number" := VNumber 1337;
              "object" := VObject []; "string" := VString "foo" ]}
  ∧ outcome (validateOptions (Some {[ "foo" := VString "bar" ]})
               [("string", Requirement None None (Some (Nested exports_string)) None None);
                ("number", Requirement None None (Some (Nested exports_number)) None None)])
    = Normal ∅.
Proof. split; by vm_compute. Qed.

Example testValidateOptionsMapIsOk :
  outcome (validateOptions (Some {[ "foo" := VNumber 1337 ]})
             [("foo", Requirement None
                        (Some (λ v, match v with
                                    | VNumber n => Normal (VString (pretty n))
                                    | _ => Throw (TypeErrorObj "")
                                    end))
                        (Some (TypeNames ["string"]))
                        (Some (λ v, match v with
                                    | VString s => VBoolean (0 <? Z.of_nat (String.length s))
                                    | _ => VUndefined
                                    end)) None)])
  = Normal {[ "foo" := VString "1337" ]}.
Proof. by vm_compute. Qed.

Example testValidateOptionsErrorMsg :
  outcome (validateOptions None
             [("foo", Requirement None None None (Some (λ v, v)) (Some "foo!"))])
  = Throw (RequirementErrorObj "foo!").
Proof. by vm_compute. Qed.

Example testValidateMapWithMissingKey :
  outcome (validateOptions (Some ∅)
             [("foo", Requirement None
                        (Some (λ v, Normal (if truthy v then v else VString "bar")))
                        None None None)])
  = Normal {[ "foo" := VString "bar" ]}
  ∧ outcome (validateOptions (Some ∅)
               [("bar", Requirement None
                          (Some (λ _, Throw (ThrownValue (VString "bar"))))
                          None None None);
                ("baz", Requirement None (Some (λ _, Normal (VString "foo")))
                          None None None)])
    = Normal {[ "baz" := VString "foo" ]}.
Proof. split; by vm_compute. Qed.

(** [required(string)], then [optional] of the result, on a store that
    holds [string] (lines 198-218 of the tests). *)
Example testRequiredAndOptional :
  ∃ h1 r h2 o a1 a2,
    required 2 (SRef 1%nat)
      [CArray [SString "string"; SString "undefined"; SString "null"];
       CObject {[ "is" := SRef 0%nat ]}]
    = Some (h1, Normal r)
    ∧ typesOf h1 r = Some (a1, [SString "string"])
    ∧ optional 2 r h1 = Some (h2, Normal o)
    ∧ typesOf h2 o
      = Some (a2, [SString "string"; SString "undefined"; SString "null"]).
Proof.
  eexists _, _, _, _, _, _. split_and!; vm_compute; reflexivity.
Qed.

(** ** Properties of the log-and-error monad *)

Lemma outcome_bind {A B} (m : M A) (k : A → M B) :
  outcome (m ≫= k)
  = match outcome m with
    | Normal a => outcome (k a)
    | Throw e => Throw e
    end.
Proof.
  destruct m as [t [a|e]]; simpl; [|done].
  unfold mbind, M_bind. by destruct (k a).
Qed.

Lemma events_bind {A B} (m : M A) (k : A → M B) :
  events (m ≫= k)
  = events m ++ match outcome m with
                | Normal a => events (k a)
                | Throw e => []
                end.
Proof.
  destruct m as [t [a|e]]; simpl.
  - unfold mbind, M_bind. by destruct (k a).
  - by rewrite app_nil_r.
Qed.

Lemma M_eq {A} (m1 m2 : M A) :
  events m1 = events m2 → outcome m1 = outcome m2 → m1 = m2.
Proof. destruct m1, m2; simpl; congruence. Qed.

Lemma bind_assoc {A B C} (m : M A) (f : A → M B) (g : B → M C) :
  (m ≫= f) ≫= g = (m ≫= (λ a, f a ≫= g)).
Proof.
  apply M_eq.
  - rewrite !events_bind, outcome_bind. destruct (outcome m); simpl.
    + by rewrite events_bind, app_assoc.
    + by rewrite app_nil_r.
  - rewrite !outcome_bind. destruct (outcome m); simpl; [|done].
    by rewrite outcome_bind.
Qed.

Lemma bind_ret_l {A B} (a : A) (k : A → M B) : mret a ≫= k = k a.
Proof.
  apply M_eq; [rewrite events_bind | rewrite outcome_bind]; done.
Qed.

(** ** Properties of [indexOf] and of the vocabulary check *)

Lemma indexOf_from_spec {A} `{EqDecision A} (l : list A) (x : A) (i : Z) :
  0 ≤ i →
  (x ∈ l ∧ i ≤ indexOf_from l x i) ∨ ((x ∉ l) ∧ indexOf_from l x i = -1).
Proof.
  revert i. induction l as [|y l IH]; intros i Hi; simpl.
  - right. split; [apply not_elem_of_nil | done].
  - destruct (decide (y = x)) as [->|Hne].
    + left. split; [left | lia].
    + destruct (IH (i + 1)) as [[Hin Hle]|[Hnin Heq]]; [lia | |].
      * left. split; [by right | lia].
      * right. split; [|done].
        intros Hin. apply elem_of_cons in Hin as [?|?]; congruence.
Qed.

Lemma bitnot_truthy_indexOf {A} `{EqDecision A} (l : list A) (x : A) :
  bitnot_truthy (indexOf l x) = true ↔ x ∈ l.
Proof.
  unfold bitnot_truthy, indexOf, Z.lnot.
  destruct (indexOf_from_spec l x 0) as [[Hin Hle]|[Hnin Heq]]; [lia | |].
  - split; [done | intros _]. apply negb_true_iff, Z.eqb_neq. lia.
  - rewrite Heq. simpl. split; [done | intros; contradiction].
Qed.

Lemma indexOf_negative {A} `{EqDecision A} (l : list A) (x : A) :
  (indexOf l x <? 0) = true ↔ x ∉ l.
Proof.
  unfold indexOf.
  destruct (indexOf_from_spec l x 0) as [[Hin Hle]|[Hnin Heq]]; [lia | |].
  - split; [|intros; contradiction]. intros Hlt. apply Z.ltb_lt in Hlt. lia.
  - rewrite Heq. done.
Qed.

Lemma checkTypeNames_valid (types : list string) :
  Forall (λ t, t ∈ VALID_TYPES) types → checkTypeNames types = Normal tt.
Proof.
  induction 1 as [|t l Ht _ IH]; simpl; [done|].
  apply bitnot_truthy_indexOf in Ht. by rewrite Ht.
Qed.

Lemma checkTypeNames_invalid (types : list string) (t : string) :
  t ∈ types → t ∉ VALID_TYPES →
  ∃ t0, t0 ∈ types ∧ (t0 ∉ VALID_TYPES)
        ∧ checkTypeNames types = Throw (internalError t0).
Proof.
  induction types as [|y l IH]; intros Hin Hbad.
  - by apply elem_of_nil in Hin.
  - simpl. destruct (bitnot_truthy (indexOf VALID_TYPES y)) eqn:Hy; simpl.
    + apply bitnot_truthy_indexOf in Hy.
      apply elem_of_cons in Hin as [->|Hin]; [contradiction|].
      destruct (IH Hin Hbad) as (t0 & ? & ? & ?).
      exists t0. split_and!; [by right | done | done].
    + exists y. split_and!; [left | | done].
      intros Hv. apply bitnot_truthy_indexOf in Hv. congruence.
Qed.

Lemma checkTypeNames_Normal (types : list string) (u : unit) :
  checkTypeNames types = Normal u → Forall (λ t, t ∈ VALID_TYPES) types.
Proof.
  induction types as [|y l IH]; simpl; [done|].
  destruct (bitnot_truthy (indexOf VALID_TYPES y)) eqn:Hy; simpl; [|done].
  intros H. constructor; [by apply bitnot_truthy_indexOf | by apply IH].
Qed.

(** ** The engine: one key, then the loop *)

Lemma applyDefault_present (options : gmap string value) key req :
  (applyDefault options key req).2 = true
  ↔ is_Some (options !! key) ∨ is_Some (req_dflt req).
Proof.
  unfold applyDefault.
  destruct (req_dflt req) as [d|]; simpl.
  - destruct (is_undefined _) eqn:Hu; simpl.
    + split; [eauto | done].
    + rewrite bool_decide_eq_true. split; [eauto|].
      intros [?|_]; [done|].
      destruct (options !! key); [eauto | done].
  - rewrite bool_decide_eq_true. split; [eauto|].
    intros [?|[? ?]]; done.
Qed.

(** What [applyMap] leaves: the value, and whether a transform returned. *)
Lemma outcome_applyMap key req v0 :
  outcome (applyMap key req v0)
  = match req_map req with
    | Some f =>
        match f v0 with
        | Normal v => Normal (v, false)
        | Throw err =>
            if instanceofRequirementError err then Throw err
            else Normal (v0, true)
        end
    | None => Normal (v0, false)
    end.
Proof.
  unfold applyMap. destruct (req_map req) as [f|]; [|done].
  rewrite outcome_bind. simpl.
  destruct (f v0) as [v|err]; [done|].
  by destruct (instanceofRequirementError err).
Qed.

Lemma events_applyMap key req v0 :
  events (applyMap key req v0)
  = match req_map req with
    | Some _ => [MapCalled key v0]
    | None => []
    end.
Proof.
  unfold applyMap. destruct (req_map req) as [f|]; [|done].
  rewrite events_bind. simpl.
  destruct (f v0) as [v|err]; [done|].
  by destruct (instanceofRequirementError err).
Qed.

Lemma events_throwRequirementError {A} key req :
  events (throwRequirementError (A:=A) key req) = [].
Proof. unfold throwRequirementError. by destruct (RequirementError key req). Qed.

Lemma events_checkIs key req v : events (checkIs key req v) = [].
Proof.
  unfold checkIs. destruct (req_is req) as [d|]; [|done].
  destruct (engineTypes d) as [l|]; [|done].
  rewrite events_bind. simpl. destruct (checkTypeNames l); [|done].
  destruct (indexOf l (getTypeOf v) <? 0); [|done].
  apply events_throwRequirementError.
Qed.

Lemma validateKey_unfold options key req :
  validateKey options key req
  = (r ← applyMap key req (applyDefault options key req).1;
     isOptional ← checkIs key req r.1;
     _ ← checkOk key req isOptional r.1;
     if (applyDefault options key req).2
        || (bool_decide (is_Some (req_map req)) && negb r.2
            && negb (is_undefined r.1))
     then mret (Some r.1) else mret None).
Proof.
  unfold validateKey. destruct (applyDefault options key req) as [v0 p]. simpl.
  apply M_eq.
  - rewrite !events_bind. f_equal. by destruct (outcome (applyMap key req v0)) as [[v mt]|].
  - rewrite !outcome_bind. by destruct (outcome (applyMap key req v0)) as [[v mt]|].
Qed.

Lemma bind_ext {A B} (m : M A) (k1 k2 : A → M B) :
  (∀ a, k1 a = k2 a) → m ≫= k1 = m ≫= k2.
Proof.
  intros Hk. destruct m as [t [a|e]]; [|done].
  unfold mbind, M_bind. by rewrite Hk.
Qed.

Lemma validateLoop_app options l1 l2 acc :
  validateLoop options (l1 ++ l2) acc
  = validateLoop options l1 acc ≫= validateLoop options l2.
Proof.
  revert acc. induction l1 as [|[k r] l1 IH]; intros acc; simpl.
  - symmetry. apply (bind_ret_l acc (validateLoop options l2)).
  - rewrite bind_assoc. apply bind_ext. intros a. apply IH.
Qed.

(** Processing reaches the entry after [before] when the entries of
    [before] pass. *)
Lemma outcome_validateLoop_reach options before key req after acc0 acc :
  outcome (validateLoop options before acc0) = Normal acc →
  outcome (validateLoop options (before ++ (key, req) :: after) acc0)
  = match outcome (validateKey options key req) with
    | Normal r => outcome (validateLoop options after (assign key r acc))
    | Throw e => Throw e
    end.
Proof.
  intros Hb. rewrite validateLoop_app, outcome_bind, Hb. simpl.
  by rewrite outcome_bind.
Qed.

Lemma events_validateLoop_reach options before key req after acc0 acc :
  outcome (validateLoop options before acc0) = Normal acc →
  events (validateLoop options (before ++ (key, req) :: after) acc0)
  = events (validateLoop options before acc0)
    ++ events (validateKey options key req)
    ++ match outcome (validateKey options key req) with
       | Normal r => events (validateLoop options after (assign key r acc))
       | Throw e => []
       end.
Proof.
  intros Hb. rewrite validateLoop_app, events_bind, Hb. simpl.
  by rewrite events_bind.
Qed.

Lemma validateKey_Normal_inv options key req r :
  outcome (validateKey options key req) = Normal r →
  is_Some r
  ↔ (is_Some (options !! key) ∨ is_Some (req_dflt req)
     ∨ ∃ f v, req_map req = Some f
              ∧ f (applyDefault options key req).1 = Normal v
              ∧ v ≠ VUndefined).
Proof.
  rewrite validateKey_unfold, outcome_bind, outcome_applyMap.
  pose proof (applyDefault_present options key req) as Hp.
  destruct (applyDefault options key req) as [v0 p]. simpl in *.
  assert (∀ v mt,
    outcome (isOptional ← checkIs key req v;
             _ ← checkOk key req isOptional v;
             if p || (bool_decide (is_Some (req_map req)) && negb mt
                      && negb (is_undefined v))
             then mret (Some v) else mret None) = Normal r →
    is_Some r ↔ p = true ∨ (is_Some (req_map req) ∧ mt = false ∧ v ≠ VUndefined))
    as Hrest.
  { intros v mt. rewrite outcome_bind.
    destruct (outcome (checkIs key req v)) as [o|]; [|done].
    rewrite outcome_bind.
    destruct (outcome (checkOk key req o v)) as [[]|]; [|done].
    destruct p; simpl.
    - intros [= <-]. split; eauto.
    - case_bool_decide as Hm; simpl.
      + destruct mt; simpl.
        * intros [= <-]. split; [intros [? ?]; done|].
          intros [?|(_ & ? & _)]; done.
        * destruct (is_undefined v) eqn:Hu; simpl; intros [= <-].
          -- split; [intros [? ?]; done|].
             intros [?|(_ & _ & ?)]; [done|]. by destruct v.
          -- split; [|eauto]. intros _. right. split_and!; [done..|].
             by intros ->.
      + intros [= <-]. split; [intros [? ?]; done|].
        intros [?|(? & _)]; done. }
  destruct (req_map req) as [f|] eqn:Hmap.
  - destruct (f v0) as [v|err] eqn:Hf.
    + intros H%Hrest. rewrite H, Hp. clear H Hp Hrest. split.
      * intros [[?|?]|(_ & _ & ?)]; eauto 10.
      * intros [?|[?|(f' & v' & ? & Hv' & ?)]]; eauto.
        simplify_eq. rewrite Hf in Hv'. simplify_eq. right. simpl. eauto.
    + destruct (instanceofRequirementError err); [done|].
      intros H%Hrest. rewrite H, Hp. clear H Hp Hrest. split.
      * intros [[?|?]|(_ & ? & _)]; eauto. done.
      * intros [?|[?|(f' & v' & ? & Hv' & ?)]]; eauto.
        simplify_eq. rewrite Hf in Hv'. done.
  - intros H%Hrest. rewrite H, Hp. clear H Hp Hrest. split.
    + intros [[?|?]|([? ?] & _)]; eauto. done.
    + intros [?|[?|(f' & v' & ? & _)]]; eauto.
Qed.

Lemma validateLoop_dom options requirements acc result :
  outcome (validateLoop options requirements acc) = Normal result →
  ∀ k, k ∈ dom result
       ↔ k ∈ dom acc
         ∨ ∃ req, (k, req) ∈ requirements
             ∧ (is_Some (options !! k) ∨ is_Some (req_dflt req)
                ∨ ∃ f v, req_map req = Some f
                         ∧ f (applyDefault options k req).1 = Normal v
                         ∧ v ≠ VUndefined).
Proof.
  revert acc. induction requirements as [|[key req] rest IH]; intros acc; simpl.
  - intros [= <-] k. split; [eauto|]. intros [?|(? & []%elem_of_nil & _)]; done.
  - rewrite outcome_bind.
    destruct (outcome (validateKey options key req)) as [r|] eqn:Hk; [|done].
    intros Hrest k. rewrite (IH _ Hrest k).
    apply validateKey_Normal_inv in Hk.
    assert (k ∈ dom (assign key r acc) ↔ k ∈ dom acc ∨ (k = key ∧ is_Some r))
      as ->.
    { destruct r as [v|]; simpl.
      - rewrite dom_insert, elem_of_union, elem_of_singleton. naive_solver.
      - split; [eauto|]. intros [?|[_ [? ?]]]; done. }
    split.
    + intros [[?|[-> Hr]]|(req' & Hin & Hinc)].
      * by left.
      * right. exists req. split; [left | by apply Hk].
      * right. exists req'. split; [by right | done].
    + intros [?|(req' & Hin & Hinc)]; [by left; left|].
      apply elem_of_cons in Hin as [[= -> ->]|Hin].
      * left. right. split; [done | by apply Hk].
      * right. by exists req'.
Qed.

(** ** The keys of the result *)



(** ** The values of the result *)

Lemma validateLoop_lookup_other options requirements acc result key :
  key ∉ requirements.*1 →
  outcome (validateLoop options requirements acc) = Normal result →
  result !! key = acc !! key.
Proof.
  revert acc. induction requirements as [|[k r] rest IH]; intros acc Hk; simpl.
  - by intros [= <-].
  - rewrite outcome_bind.
    destruct (outcome (validateKey options k r)) as [o|]; [|done].
    intros H. simpl in Hk. apply not_elem_of_cons in Hk as [Hne Hk].
    rewrite (IH _ Hk H). destruct o as [v|]; simpl; [|done].
    by rewrite lookup_insert_ne.
Qed.

(** With distinct keys in the requirements, the result holds for a key what
    the processing of that key assigned. *)
Lemma validateLoop_lookup options requirements acc result key req :
  NoDup requirements.*1 → (key, req) ∈ requirements →
  outcome (validateLoop options requirements acc) = Normal result →
  ∃ r, outcome (validateKey options key req) = Normal r
       ∧ result !! key = assign key r acc !! key.
Proof.
  revert acc. induction requirements as [|[k r0] rest IH]; intros acc Hnd Hin.
  - by apply elem_of_nil in Hin.
  - simpl in *. apply NoDup_cons in Hnd as [Hk Hnd]. rewrite outcome_bind.
    destruct (outcome (validateKey options k r0)) as [o|] eqn:Ho; [|done].
    intros H. apply elem_of_cons in Hin as [[= -> ->]|Hin].
    + exists o. split; [done|]. by eapply validateLoop_lookup_other.
    + destruct (IH _ Hnd Hin H) as (r & Hr & ->). exists r. split; [done|].
      assert (key ≠ k) as Hne.
      { intros ->. apply Hk. apply list_elem_of_fmap. by exists (k, req). }
      destruct r as [v|]; simpl; [by rewrite !lookup_insert_eq|].
      destruct o as [v|]; simpl; [|done]. by rewrite lookup_insert_ne.
Qed.

(** ** The default *)




(** ** Errors raised while one key is processed *)

Lemma outcome_throwRequirementError {A} key req :
  outcome (throwRequirementError (A:=A) key req)
  = Throw match RequirementError key req with
          | Normal err => err
          | Throw e => e
          end.
Proof. unfold throwRequirementError. by destruct (RequirementError key req). Qed.

(** The constructor builds a [RequirementError] unless [msg] is falsy and
    [is] is a requirement object. *)
Lemma RequirementError_Normal key req :
  truthy_string (req_msg req) = true ∨ req_is req = None
  ∨ (∃ names, req_is req = Some (TypeNames names)) →
  ∃ m, RequirementError key req = Normal (RequirementErrorObj m).
Proof.
  unfold RequirementError. intros H.
  destruct (truthy_string (req_msg req)); [eauto|].
  destruct H as [?|[->|[names ->]]]; [done|eauto..].
Qed.

Lemma RequirementError_instanceof key req err :
  RequirementError key req = Normal err → instanceofRequirementError err = true.
Proof.
  unfold RequirementError. destruct (truthy_string (req_msg req)).
  - by intros [= <-].
  - destruct (req_is req) as [[names|r]|]; [|done|]; by intros [= <-].
Qed.

Lemma outcome_checkIs key req v :
  outcome (checkIs key req v)
  = match req_is req ≫= engineTypes with
    | Some types =>
        match checkTypeNames types with
        | Normal _ =>
            if indexOf types (getTypeOf v) <? 0
            then outcome (throwRequirementError (A:=bool) key req)
            else Normal (forallb (λ t, bitnot_truthy (indexOf types t))
                                 ["undefined"; "null"])
        | Throw e => Throw e
        end
    | None => Normal false
    end.
Proof.
  unfold checkIs. destruct (req_is req) as [d|]; [|done].
  change (Some d ≫= engineTypes) with (engineTypes d).
  destruct (engineTypes d) as [types|]; [|done].
  rewrite outcome_bind. simpl. destruct (checkTypeNames types); [|done].
  by destruct (indexOf types (getTypeOf v) <? 0).
Qed.

Lemma outcome_checkOk key req isOptional v :
  outcome (checkOk key req isOptional v)
  = match req_ok req with
    | Some ok =>
        if (negb isOptional || not_nullish v) && negb (truthy (ok v))
        then outcome (throwRequirementError (A:=unit) key req)
        else Normal tt
    | None => Normal tt
    end.
Proof.
  unfold checkOk. destruct (req_ok req) as [ok|]; [|done].
  destruct (negb isOptional || not_nullish v); [|done].
  rewrite outcome_bind. simpl. by destruct (negb (truthy (ok v))).
Qed.

Lemma events_checkOk key req isOptional v :
  events (checkOk key req isOptional v)
  = match req_ok req with
    | Some ok =>
        if negb isOptional || not_nullish v then [OkCalled key v] else []
    | None => []
    end.
Proof.
  unfold checkOk. destruct (req_ok req) as [ok|]; [|done].
  destruct (negb isOptional || not_nullish v); [|done].
  rewrite events_bind. simpl. destruct (negb (truthy (ok v))); [|done].
  by rewrite events_throwRequirementError.
Qed.

(** Every error of [validateKey] comes from one of three places. *)
Lemma validateKey_Throw_inv options key req e :
  outcome (validateKey options key req) = Throw e →
  (∃ f, req_map req = Some f
        ∧ f (applyDefault options key req).1 = Throw e
        ∧ instanceofRequirementError e = true)
  ∨ (∃ types, req_is req ≫= engineTypes = Some types
              ∧ checkTypeNames types = Throw e)
  ∨ RequirementError key req = Normal e
  ∨ RequirementError key req = Throw e.
Proof.
  rewrite validateKey_unfold, outcome_bind, outcome_applyMap.
  set (v0 := (applyDefault options key req).1).
  assert (∀ v (b : bool),
    outcome (isOptional ← checkIs key req v;
             _ ← checkOk key req isOptional v;
             if b then mret (Some v) else mret None) = Throw e →
    (∃ types, req_is req ≫= engineTypes = Some types
              ∧ checkTypeNames types = Throw e)
    ∨ RequirementError key req = Normal e
    ∨ RequirementError key req = Throw e) as Hrest.
  { intros v b. rewrite outcome_bind, outcome_checkIs.
    destruct (req_is req ≫= engineTypes) as [types|].
    - destruct (checkTypeNames types) as [[]|e'] eqn:Hn.
      + destruct (indexOf types (getTypeOf v) <? 0).
        * rewrite outcome_throwRequirementError. simpl. intros [= <-].
          right. destruct (RequirementError key req); eauto.
        * rewrite outcome_bind, outcome_checkOk.
          destruct (req_ok req) as [ok|]; [|by destruct b].
          destruct (_ && _); [|by destruct b].
          rewrite outcome_throwRequirementError. simpl. intros [= <-].
          right. destruct (RequirementError key req); eauto.
      + intros [= ->]. left. eauto.
    - rewrite outcome_bind, outcome_checkOk.
      destruct (req_ok req) as [ok|]; [|by destruct b].
      destruct (_ && _); [|by destruct b].
      rewrite outcome_throwRequirementError. simpl. intros [= <-].
      right. destruct (RequirementError key req); eauto. }
  destruct (req_map req) as [f|].
  - destruct (f v0) as [v|err] eqn:Hf.
    + intros H%Hrest. by right.
    + destruct (instanceofRequirementError err) eqn:Hi.
      * intros [= ->]. left. eauto.
      * intros H%Hrest. by right.
  - intros H%Hrest. by right.
Qed.

Lemma validateLoop_Throw_inv options requirements acc e :
  outcome (validateLoop options requirements acc) = Throw e →
  ∃ key req, (key, req) ∈ requirements
             ∧ outcome (validateKey options key req) = Throw e.
Proof.
  revert acc. induction requirements as [|[key req] rest IH]; intros acc; simpl.
  - done.
  - rewrite outcome_bind.
    destruct (outcome (validateKey options key req)) as [r|e'] eqn:Hk.
    + intros (k' & r' & ? & ?)%IH. exists k', r'. split; [by right | done].
    + intros [= ->]. exists key, req. split; [left | done].
Qed.

Lemma checkTypeNames_Throw (types : list string) (e : thrown) :
  checkTypeNames types = Throw e →
  ∃ t, t ∈ types ∧ (t ∉ VALID_TYPES) ∧ e = internalError t.
Proof.
  induction types as [|y l IH]; simpl; [done|].
  destruct (bitnot_truthy (indexOf VALID_TYPES y)) eqn:Hy; simpl.
  - intros (t & ? & ? & ?)%IH. exists t. split_and!; [by right | done..].
  - intros [= <-]. exists y. split_and!; [left | | done].
    intros Hv. apply bitnot_truthy_indexOf in Hv. congruence.
Qed.

Lemma truthy_string_false (s : option string) :
  truthy_string s = false ↔ s = None ∨ s = Some "".
Proof.
  destruct s as [s|]; simpl; [|naive_solver].
  rewrite negb_false_iff, String.eqb_eq. naive_solver.
Qed.

(** ** The message of a validation failure *)




(** ** Nested requirements in [is] *)

(** The engine follows [.is] once.  Below a second requirement object it
    finds no array, and then it checks nothing. *)
Lemma checkIs_nested_twice key req r r' v :
  req_is req = Some (Nested r) → req_is r = Some (Nested r') →
  checkIs key req v = mret false.
Proof. unfold checkIs. intros -> Hr. simpl. by rewrite Hr. Qed.

(** C3: the requirement [{is: {is: {is: ['string']}}}] should reject the
    number 5, whose type is not [string]; the engine returns it as valid.
    Declared directly, or one level down, the same array does reject it
    (one level down by way of a [TypeError], because the message cannot be
    built). *)
Theorem nested_twice_is_not_checked :
  getTypeOf (VNumber 5) = "number"
  ∧ validateOptions (Some {[ "foo" := VNumber 5 ]})
      [("foo", Requirement None None
                 (Some (Nested (Requirement None None
                   (Some (Nested (Requirement None None
                     (Some (TypeNames ["string"])) None None)))
                   None None)))
                 None None)]
    = ([], Normal {[ "foo" := VNumber 5 ]})
  ∧ outcome (validateOptions (Some {[ "foo" := VNumber 5 ]})
      [("foo", Requirement None None (Some (TypeNames ["string"])) None None)])
    = Throw (RequirementErrorObj
               (("The option " +:+ dq +:+ "foo" +:+ dq +:+ " ")
                  +:+ "must be one of the following types: " +:+ "string"))
  ∧ outcome (validateOptions (Some {[ "foo" := VNumber 5 ]})
      [("foo", Requirement None None
                 (Some (Nested (Requirement None None
                                  (Some (TypeNames ["string"])) None None)))
                 None None)])
    = Throw (TypeErrorObj "requirement.is.join is not a function").
Proof. vm_compute. done. Qed.

(** ** Which calls are logged *)

Lemma events_validateKey options key req :
  events (validateKey options key req)
  = events (applyMap key req (applyDefault options key req).1)
    ++ match outcome (applyMap key req (applyDefault options key req).1) with
       | Normal r =>
           match outcome (checkIs key req r.1) with
           | Normal isOptional => events (checkOk key req isOptional r.1)
           | Throw _ => []
           end
       | Throw _ => []
       end.
Proof.
  rewrite validateKey_unfold, events_bind. f_equal.
  destruct (outcome (applyMap _ _ _)) as [r|]; [|done].
  rewrite events_bind, events_checkIs. simpl.
  destruct (outcome (checkIs _ _ _)) as [o|]; [|done].
  rewrite events_bind.
  destruct (outcome (checkOk _ _ _ _)); [|by rewrite app_nil_r].
  destruct (_ || _); by rewrite app_nil_r.
Qed.

Lemma OkCalled_validateKey options key req k arg :
  OkCalled k arg ∈ events (validateKey options key req) → k = key.
Proof.
  rewrite events_validateKey, events_applyMap, elem_of_app.
  intros [Hin|Hin].
  - destruct (req_map req); [|by apply elem_of_nil in Hin].
    by apply list_elem_of_singleton in Hin.
  - destruct (outcome (applyMap _ _ _)) as [r|]; [|by apply elem_of_nil in Hin].
    destruct (outcome (checkIs _ _ _)) as [o|]; [|by apply elem_of_nil in Hin].
    rewrite events_checkOk in Hin.
    destruct (req_ok req); [|by apply elem_of_nil in Hin].
    destruct (_ || _); [|by apply elem_of_nil in Hin].
    apply list_elem_of_singleton in Hin. congruence.
Qed.

Lemma OkCalled_validateLoop options requirements acc k arg :
  OkCalled k arg ∈ events (validateLoop options requirements acc) →
  k ∈ requirements.*1.
Proof.
  revert acc. induction requirements as [|[key req] rest IH]; intros acc; simpl.
  - intros []%elem_of_nil.
  - rewrite events_bind, elem_of_app. intros [Hin|Hin].
    + apply OkCalled_validateKey in Hin as ->. left.
    + destruct (outcome (validateKey _ _ _)); [|by apply elem_of_nil in Hin].
      right. by eapply IH.
Qed.

(** ** The transform *)

Lemma validateKey_withoutMap options key req f e :
  req_map req = Some f →
  f (applyDefault options key req).1 = Throw e →
  instanceofRequirementError e = false →
  outcome (validateKey options key req)
  = outcome (validateKey options key (withoutMap req)).
Proof.
  intros Hmap Hf He.
  assert (applyDefault options key (withoutMap req)
          = applyDefault options key req) as Hd by by destruct req.
  assert (∀ v, checkIs key (withoutMap req) v = checkIs key req v) as Hi
    by by destruct req.
  assert (∀ o v, checkOk key (withoutMap req) o v = checkOk key req o v) as Ho
    by by destruct req.
  assert (req_map (withoutMap req) = None) as Hn by by destruct req.
  rewrite !validateKey_unfold, !outcome_bind, !outcome_applyMap.
  rewrite Hd, Hmap, Hn, Hf, He. simpl.
  rewrite !outcome_bind, Hi.
  destruct (outcome (checkIs _ _ _)) as [o|]; [|done].
  rewrite !outcome_bind, Ho.
  by destruct (outcome (checkOk _ _ _ _)).
Qed.

(** C2: let the requirement of [key] declare a transform [f] that throws
    [e] on the value it is given (the value after the default), and let the
    keys before [key] pass.  If [e] is a [RequirementError], the call ends
    with [e] right after the call to the transform.  Otherwise the type
    check, the predicate and the inclusion test run on the value from
    before the transform, and the call ends as it does for the same
    requirement without the transform. *)
Theorem transform_errors
    (options : option (gmap string value))
    (before after : list (string * requirement))
    (key : string) (req : requirement) (acc : gmap string value)
    (f : value → completion value) (e : thrown) :
  outcome (validateOptions options before) = Normal acc →
  req_map req = Some f →
  f (applyDefault (default ∅ options) key req).1 = Throw e →
  (instanceofRequirementError e = true →
   outcome (validateOptions options (before ++ (key, req) :: after)) = Throw e
   ∧ events (validateOptions options (before ++ (key, req) :: after))
     = events (validateOptions options before)
       ++ [MapCalled key (applyDefault (default ∅ options) key req).1])
  ∧ (instanceofRequirementError e = false →
     validateKey (default ∅ options) key req
     = (_ ← log (MapCalled key (applyDefault (default ∅ options) key req).1);
        isOptional ← checkIs key req (applyDefault (default ∅ options) key req).1;
        _ ← checkOk key req isOptional (applyDefault (default ∅ options) key req).1;
        if (applyDefault (default ∅ options) key req).2
        then mret (Some (applyDefault (default ∅ options) key req).1)
        else mret None)
     ∧ outcome (validateOptions options (before ++ (key, req) :: after))
       = outcome (validateOptions options
                    (before ++ (key, withoutMap req) :: after))).
Proof.
  unfold validateOptions. intros Hb Hmap Hf. split.
  - intros He. split.
    + rewrite (outcome_validateLoop_reach _ _ _ _ _ _ _ Hb).
      rewrite validateKey_unfold, outcome_bind, outcome_applyMap.
      by rewrite Hmap, Hf, He.
    + rewrite (events_validateLoop_reach _ _ _ _ _ _ _ Hb). f_equal.
      rewrite events_validateKey, events_applyMap, outcome_applyMap.
      rewrite validateKey_unfold, outcome_bind, outcome_applyMap.
      by rewrite Hmap, Hf, He.
  - intros He. split.
    + rewrite validateKey_unfold. unfold applyMap. rewrite Hmap, Hf, He.
      rewrite bind_assoc. apply bind_ext. intros []. rewrite bind_ret_l. simpl.
      apply bind_ext. intros o. apply bind_ext. intros [].
      by rewrite orb_false_r.
    + rewrite !(outcome_validateLoop_reach _ _ _ _ _ _ _ Hb).
      by rewrite (validateKey_withoutMap _ _ _ _ _ Hmap Hf He).
Qed.

Lemma transform_errors_witness :
  outcome (validateOptions (Some {[ "foo" := VNumber 3 ]})
             [("foo", Requirement None
                        (Some (λ _, Throw (RequirementErrorObj "no")))
                        None None None)])
  = Throw (RequirementErrorObj "no")
  ∧ outcome (validateOptions (Some {[ "foo" := VNumber 3 ]})
               [("foo", Requirement None
                          (Some (λ _, Throw (ThrownValue (VString "bar"))))
                          None None None)])
    = outcome (validateOptions (Some {[ "foo" := VNumber 3 ]})
                 [("foo", Requirement None None None None None)]).
Proof.
  split.
  - exact (proj1 (proj1 (transform_errors (Some {[ "foo" := VNumber 3 ]})
                           [] [] "foo"
                           (Requirement None
                              (Some (λ _, Throw (RequirementErrorObj "no")))
                              None None None)
                           ∅ (λ _, Throw (RequirementErrorObj "no"))
                           (RequirementErrorObj "no")
                           eq_refl eq_refl eq_refl) eq_refl)).
  - exact (proj2 (proj2 (transform_errors (Some {[ "foo" := VNumber 3 ]})
                           [] [] "foo"
                           (Requirement None
                              (Some (λ _, Throw (ThrownValue (VString "bar"))))
                              None None None)
                           ∅ (λ _, Throw (ThrownValue (VString "bar")))
                           (ThrownValue (VString "bar"))
                           eq_refl eq_refl eq_refl) eq_refl)).
Defined.

(** ** Type names outside the vocabulary *)

(** C7, as stated, fails: the accepted types hold a name outside the
    vocabulary, and the error that leaves [validateOptions] is the
    [RequirementError] thrown by the transform of the same requirement. *)
Lemma transform_error_precedes_type_names :
  ("bogus" ∉ VALID_TYPES)
  ∧ outcome (validateOptions (Some {[ "foo" := VNumber 1 ]})
               [("foo", Requirement None
                          (Some (λ _, Throw (RequirementErrorObj "no")))
                          (Some (TypeNames ["bogus"])) None None)])
    = Throw (RequirementErrorObj "no")
  ∧ instanceofRequirementError (RequirementErrorObj "no") = true.
Proof.
  split_and!; [|done..].
  intros H. apply bitnot_truthy_indexOf in H. done.
Qed.

(** C7, amended: let the array the engine finds for [req] (its [is], or
    the [is] one level below) hold a name outside the vocabulary, let the
    keys before [key] pass, and let the transform of [req], if any, not
    throw a [RequirementError].  Then, whatever the options hold, the call
    ends with the internal error for the first such name of the array, and
    that error is not a [RequirementError]. *)
Theorem invalid_type_name
    (options : option (gmap string value))
    (before after : list (string * requirement))
    (key : string) (req : requirement) (acc : gmap string value)
    (types : list string) (t : string) :
  outcome (validateOptions options before) = Normal acc →
  req_is req ≫= engineTypes = Some types →
  t ∈ types → t ∉ VALID_TYPES →
  (∀ f e, req_map req = Some f →
          f (applyDefault (default ∅ options) key req).1 = Throw e →
          instanceofRequirementError e = false) →
  ∃ t0, t0 ∈ types ∧ (t0 ∉ VALID_TYPES)
        ∧ checkTypeNames types = Throw (internalError t0)
        ∧ outcome (validateOptions options (before ++ (key, req) :: after))
          = Throw (internalError t0)
        ∧ instanceofRequirementError (internalError t0) = false.
Proof.
  unfold validateOptions. intros Hb Htypes Hin Hbad Hmap.
  destruct (checkTypeNames_invalid types t Hin Hbad) as (t0 & Hin0 & Hbad0 & Hc).
  exists t0. split_and!; [done..| |done].
  rewrite (outcome_validateLoop_reach _ _ _ _ _ _ _ Hb).
  rewrite validateKey_unfold, outcome_bind, outcome_applyMap.
  assert (∀ r, outcome (checkIs key req r) = Throw (internalError t0)) as Hi.
  { intros r. by rewrite outcome_checkIs, Htypes, Hc. }
  destruct (req_map req) as [f|].
  - destruct (f _) as [v|e] eqn:Hf.
    + by rewrite outcome_bind, Hi.
    + rewrite (Hmap f e eq_refl Hf). by rewrite outcome_bind, Hi.
  - by rewrite outcome_bind, Hi.
Qed.

Lemma invalid_type_name_witness :
  ∃ t0, t0 ∈ ["string"; "integer"] ∧ (t0 ∉ VALID_TYPES)
        ∧ checkTypeNames ["string"; "integer"] = Throw (internalError t0)
        ∧ outcome (validateOptions (Some {[ "foo" := VString "x" ]})
                     ([] ++ ("foo", Requirement None None
                                      (Some (TypeNames ["string"; "integer"]))
                                      None None) :: []))
          = Throw (internalError t0)
        ∧ instanceofRequirementError (internalError t0) = false.
Proof.
  apply (invalid_type_name (Some {[ "foo" := VString "x" ]}) [] [] "foo"
           (Requirement None None (Some (TypeNames ["string"; "integer"]))
              None None)
           ∅ ["string"; "integer"] "integer").
  - reflexivity.
  - reflexivity.
  - right. left.
  - intros H. apply bitnot_truthy_indexOf in H. vm_compute in H. discriminate H.
  - intros f e H. discriminate H.
Defined.

(** ** The predicate *)


Lemma isOptional_spec (types : list string) :
  forallb (λ t, bitnot_truthy (indexOf types t)) ["undefined"; "null"] = true
  ↔ "undefined" ∈ types ∧ "null" ∈ types.
Proof.
  simpl. rewrite andb_true_r, andb_true_iff, !bitnot_truthy_indexOf. done.
Qed.

Lemma not_nullish_false (v : value) :
  not_nullish v = false ↔ v = VUndefined ∨ v = VNull.
Proof. destruct v; simpl; naive_solver. Qed.



(** ** Part II: reasoning about store computations *)

Lemma St_bind_inv {A B} (m : St A) (k : A → St B) (h h' : store)
    (r : completion B) :
  (m ≫= k) h = Some (h', r) →
  ∃ h1 r1, m h = Some (h1, r1)
           ∧ match r1 with
             | Normal a => k a h1 = Some (h', r)
             | Throw e => h' = h1 ∧ r = Throw e
             end.
Proof.
  unfold mbind, St_bind. destruct (m h) as [[h1 [a|e]]|]; [| |done].
  - intros H. by exists h1, (Normal a).
  - intros [= <- <-]. by exists h1, (Throw e).
Qed.

Lemma St_bind_run {A B} (m : St A) (k : A → St B) (h h1 : store) (a : A) :
  m h = Some (h1, Normal a) → (m ≫= k) h = k a h1.
Proof. unfold mbind, St_bind. by intros ->. Qed.

Lemma grows_refl n h : grows n h h.
Proof. by split. Qed.

Lemma grows_trans n h1 h2 h3 : grows n h1 h2 → grows n h2 h3 → grows n h1 h3.
Proof.
  intros [? H12] [? H23]. split; [lia|].
  intros l Hl. by rewrite H23, H12.
Qed.

Lemma grows_alloc n h c : (n ≤ length h)%nat → grows n h (h ++ [c]).
Proof.
  intros Hn. split; [rewrite length_app; lia|].
  intros l Hl. apply lookup_app_l. lia.
Qed.

Lemma grows_write n h l c : (n ≤ l)%nat → grows n h (<[l := c]> h).
Proof.
  intros Hn. split; [by rewrite length_insert|].
  intros l' Hl'. apply list_lookup_insert_ne. lia.
Qed.

Lemma keeps_ret {A} n (a : A) (Q : A → Prop) : Q a → keeps n (mret a) Q.
Proof.
  intros HQ h h' r _ [= <- <-]. split; [apply grows_refl|]. by intros ? [= <-].
Qed.

Lemma keeps_bind {A B} n (m : St A) (k : A → St B) (Q : A → Prop)
    (R : B → Prop) :
  keeps n m Q → (∀ a, Q a → keeps n (k a) R) → keeps n (m ≫= k) R.
Proof.
  intros Hm Hk h h' r Hn (h1 & r1 & H1 & H2)%St_bind_inv.
  destruct (Hm h h1 r1 Hn H1) as [Hg HQ].
  destruct r1 as [a|e].
  - destruct (Hk a (HQ a eq_refl) h1 h' r) as [Hg' HR]; [destruct Hg; lia|done|].
    split; [by eapply grows_trans | done].
  - destruct H2 as [-> ->]. split; [done | by intros ? [=]].
Qed.

Lemma keeps_weaken {A} n (m : St A) (Q Q' : A → Prop) :
  keeps n m Q → (∀ a, Q a → Q' a) → keeps n m Q'.
Proof.
  intros Hm HQ h h' r Hn H. destruct (Hm h h' r Hn H) as [Hg Hr].
  split; [done|]. intros a Ha. by apply HQ, Hr.
Qed.

Lemma keeps_typeError {A} n msg (Q : A → Prop) : keeps n (typeError msg) Q.
Proof. intros h h' r _ [= <- <-]. split; [apply grows_refl | by intros ? [=]]. Qed.

Lemma keeps_unmodelled {A} n (Q : A → Prop) : keeps n unmodelled Q.
Proof. by intros h h' r _ [=]. Qed.

Lemma keeps_alloc n c : keeps n (alloc c) (λ l, (n ≤ l)%nat).
Proof.
  intros h h' r Hn [= <- <-]. split; [by apply grows_alloc|].
  by intros ? [= <-].
Qed.

Lemma keeps_read n l : keeps n (read l) (λ _, True).
Proof.
  intros h h' r _. unfold read. destruct (h !! l); [|done].
  intros [= <- <-]. split; [apply grows_refl | done].
Qed.

Lemma keeps_write n l c : (n ≤ l)%nat → keeps n (write l c) (λ _, True).
Proof.
  intros Hl h h' r _. unfold write. case_decide; [|done].
  intros [= <- <-]. split; [by apply grows_write | done].
Qed.

Ltac keeps_step :=
  first
    [ apply keeps_typeError
    | apply keeps_unmodelled
    | apply keeps_ret; try done
    | eapply keeps_bind; [apply keeps_read | intros ? _]
    | eapply keeps_bind; [apply keeps_alloc | intros ? ?] ].

Lemma keeps_isArray_s n v : keeps n (isArray_s v) (λ _, True).
Proof. destruct v; simpl; repeat keeps_step. Qed.

Lemma keeps_get_is n v : keeps n (get_is v) (λ _, True).
Proof. destruct v; simpl; repeat keeps_step. Qed.

Lemma keeps_findTypes n fuel v : keeps n (findTypes fuel v) (λ _, True).
Proof.
  revert v. induction fuel as [|fuel IH]; intros v; simpl.
  - apply keeps_unmodelled.
  - eapply keeps_bind; [apply keeps_isArray_s|]. intros [] _; [keeps_step|].
    eapply keeps_bind; [apply keeps_get_is|]. intros i _.
    destruct (truthy_s i); [apply IH | keeps_step].
Qed.

Lemma keeps_filter_isTruthyType n v :
  keeps n (filter_isTruthyType v) (λ r, ∃ l, r = SRef l ∧ (n ≤ l)%nat).
Proof.
  destruct v as [| | | | | |l0]; simpl; [keeps_step..|].
  eapply keeps_bind; [apply keeps_read|]. intros [elems|props] _.
  - eapply keeps_bind; [apply keeps_alloc|]. intros l Hl.
    apply keeps_ret. eauto.
  - destruct (props !! "filter"); keeps_step.
Qed.

Lemma keeps_spread n v : keeps n (spread v) (λ _, True).
Proof. destruct v; simpl; repeat keeps_step. Qed.

Lemma keeps_mapM {A B} n (f : A → St B) (l : list A) :
  (∀ a, keeps n (f a) (λ _, True)) → keeps n (mapM f l) (λ _, True).
Proof.
  intros Hf. induction l as [|a l IH]; simpl; [by apply keeps_ret|].
  eapply keeps_bind; [apply Hf|]. intros b _.
  eapply keeps_bind; [apply IH|]. intros bs _. by apply keeps_ret.
Qed.

Lemma keeps_concat n this args :
  keeps n (concat this args) (λ r, ∃ l, r = SRef l ∧ (n ≤ l)%nat).
Proof.
  destruct this as [| | | | | |l0]; cbn -[mapM]; [keeps_step..|].
  apply (keeps_bind n _ _ (λ _, True)); [apply keeps_mapM, keeps_spread|].
  intros parts _.
  eapply keeps_bind; [apply keeps_alloc|]. intros l' Hl.
  apply keeps_ret. eauto.
Qed.

Lemma keeps_ownProperties n props : keeps n (ownProperties props) (λ _, True).
Proof. destruct props; simpl; repeat keeps_step. Qed.

Lemma keeps_collect n properties descriptor :
  keeps n (collect properties descriptor) (λ _, True).
Proof.
  revert descriptor. induction properties as [|p ps IH]; intros d; simpl.
  - by apply keeps_ret.
  - eapply keeps_bind; [apply keeps_ownProperties|]. intros own _. apply IH.
Qed.

Lemma keeps_defineProperties n l descriptor :
  (n ≤ l)%nat →
  keeps n (defineProperties (SRef l) descriptor) (λ r, r = SRef l).
Proof.
  intros Hl. simpl. eapply keeps_bind; [apply keeps_read|]. intros [elems|pm] _.
  - keeps_step.
  - eapply keeps_bind; [by apply keeps_write|]. intros _ _. by apply keeps_ret.
Qed.

Lemma keeps_merge n l properties :
  (n ≤ l)%nat → keeps n (merge (SRef l) properties) (λ r, r = SRef l).
Proof.
  intros Hl. unfold merge.
  eapply keeps_bind; [apply keeps_collect|]. intros d _.
  by apply keeps_defineProperties.
Qed.

Lemma keeps_argumentsList n argArray :
  keeps n (argumentsList argArray) (λ _, True).
Proof.
  destruct argArray as [| | | | | |l0]; simpl; [keeps_step..|].
  eapply keeps_bind; [apply keeps_read|]. intros [elems|pm] _.
  - keeps_step.
  - destruct (pm !! "length"); keeps_step.
Qed.

Lemma keeps_concatApply n arrays :
  keeps n (concatApply arrays) (λ r, ∃ l, r = SRef l ∧ (n ≤ l)%nat).
Proof.
  unfold concatApply.
  eapply keeps_bind; [apply keeps_alloc|]. intros _ _.
  destruct arrays as [|this rest]; [apply keeps_concat|].
  apply (keeps_bind n _ _ (λ _, True)).
  - destruct rest; [keeps_step | apply keeps_argumentsList].
  - intros args _. apply keeps_concat.
Qed.

Lemma keeps_pushNew n result item :
  (n ≤ result)%nat → keeps n (pushNew result item) (λ _, True).
Proof.
  intros Hr. unfold pushNew.
  eapply keeps_bind; [apply keeps_read|]. intros [elems|pm] _; [|keeps_step].
  destruct (negb _); [by apply keeps_write | keeps_step].
Qed.

Lemma keeps_reduce n items result :
  (n ≤ result)%nat → keeps n (reduce items result) (λ _, True).
Proof.
  intros Hr. induction items as [|item rest IH]; simpl; [keeps_step|].
  eapply keeps_bind; [by apply keeps_pushNew|]. intros _ _. apply IH.
Qed.

Lemma keeps_union n arrays :
  keeps n (union arrays) (λ r, ∃ l, r = SRef l ∧ (n ≤ l)%nat).
Proof.
  unfold union.
  eapply keeps_bind; [apply keeps_concatApply|]. intros combined _.
  eapply keeps_bind; [apply keeps_spread|]. intros items _.
  eapply keeps_bind; [apply keeps_alloc|]. intros result Hr.
  eapply keeps_bind; [by apply keeps_reduce|]. intros _ _.
  apply keeps_ret. eauto.
Qed.

Lemma keeps_either n fuel types :
  keeps n (either fuel types) (λ r, ∃ l, r = SRef l ∧ (n ≤ l)%nat).
Proof.
  unfold either.
  apply (keeps_bind n _ _ (λ _, True)).
  - apply keeps_mapM. intros v. apply keeps_findTypes.
  - intros arrays _. apply keeps_union.
Qed.

Lemma keeps_required n fuel req :
  keeps n (required fuel req) (λ r, ∃ l, r = SRef l ∧ (n ≤ l)%nat).
Proof.
  unfold required.
  eapply keeps_bind; [apply keeps_findTypes|]. intros found _.
  apply (keeps_bind n _ _ (λ _, True)).
  { destruct (truthy_s found).
    - eapply keeps_weaken; [apply keeps_filter_isTruthyType | done].
    - eapply keeps_bind; [apply keeps_alloc|]. intros l _. by apply keeps_ret. }
  intros types _.
  eapply keeps_bind; [apply keeps_alloc|]. intros target Ht.
  eapply keeps_bind; [apply keeps_alloc|]. intros last _.
  eapply keeps_weaken; [by apply keeps_merge|]. intros a ->. eauto.
Qed.

Lemma keeps_set_is n l v :
  (n ≤ l)%nat → keeps n (set_is (SRef l) v) (λ _, True).
Proof.
  intros Hl. simpl. eapply keeps_bind; [apply keeps_read|].
  intros [elems|pm] _; [keeps_step | by apply keeps_write].
Qed.

Lemma keeps_optional n fuel req :
  keeps n (optional fuel req) (λ r, ∃ l, r = SRef l ∧ (n ≤ l)%nat).
Proof.
  unfold optional.
  eapply keeps_bind; [apply keeps_alloc|]. intros empty _.
  eapply keeps_bind; [apply keeps_alloc|]. intros target Ht.
  eapply keeps_bind; [by apply keeps_merge|]. intros ? ->.
  eapply keeps_bind; [apply keeps_findTypes|]. intros found _.
  eapply keeps_bind; [apply keeps_filter_isTruthyType|]. intros kept _.
  eapply keeps_bind; [apply keeps_concat|]. intros types _.
  eapply keeps_bind; [by apply keeps_set_is|]. intros _ _.
  apply keeps_ret. eauto.
Qed.

(** Nothing that was in the store before a combinator ran is changed by
    it, whether it returns or throws. *)
Lemma frame_of_keeps {A} (m : St A) (Q : A → Prop) (h h' : store)
    (r : completion A) :
  keeps (length h) m Q → m h = Some (h', r) →
  ∀ l c, h !! l = Some c → h' !! l = Some c.
Proof.
  intros Hm Hrun l c Hl. destruct (Hm h h' r (le_n _) Hrun) as [[_ Hg] _].
  rewrite Hg; [done|]. by eapply lookup_lt_Some.
Qed.

(** ** Computations that only read *)

Lemma readonly_ret {A} (a : A) : readonly (mret a).
Proof. by intros h h' r [= <- <-]. Qed.

Lemma readonly_bind {A B} (m : St A) (k : A → St B) :
  readonly m → (∀ a, readonly (k a)) → readonly (m ≫= k).
Proof.
  intros Hm Hk h h' r (h1 & r1 & H1 & H2)%St_bind_inv.
  apply Hm in H1 as ->. destruct r1 as [a|e].
  - by apply Hk in H2.
  - by destruct H2.
Qed.

Lemma readonly_typeError {A} msg : readonly (typeError (A:=A) msg).
Proof. by intros h h' r [= <- <-]. Qed.

Lemma readonly_unmodelled {A} : readonly (unmodelled (A:=A)).
Proof. by intros h h' r [=]. Qed.

Lemma readonly_read l : readonly (read l).
Proof. intros h h' r. unfold read. destruct (h !! l); [|done]. by intros [= <- <-]. Qed.

Ltac readonly_step :=
  first
    [ apply readonly_typeError
    | apply readonly_unmodelled
    | apply readonly_ret
    | apply readonly_read
    | apply readonly_bind; [|intros ?] ].

Lemma readonly_isArray_s v : readonly (isArray_s v).
Proof. destruct v; simpl; repeat readonly_step. Qed.

Lemma readonly_get_is v : readonly (get_is v).
Proof. destruct v; simpl; repeat readonly_step. Qed.

Lemma readonly_findTypes fuel v : readonly (findTypes fuel v).
Proof.
  revert v. induction fuel as [|fuel IH]; intros v; simpl.
  - apply readonly_unmodelled.
  - apply readonly_bind; [apply readonly_isArray_s|]. intros [].
    + apply readonly_ret.
    + apply readonly_bind; [apply readonly_get_is|]. intros i.
      destruct (truthy_s i); [apply IH | apply readonly_ret].
Qed.

Lemma readonly_spread v : readonly (spread v).
Proof. destruct v; simpl; repeat readonly_step. Qed.

Lemma readonly_mapM {A B} (f : A → St B) (l : list A) :
  (∀ a, readonly (f a)) → readonly (mapM f l).
Proof.
  intros Hf. induction l as [|a l IH]; simpl; [apply readonly_ret|].
  apply readonly_bind; [apply Hf|]. intros b.
  apply readonly_bind; [apply IH|]. intros bs. apply readonly_ret.
Qed.

Lemma readonly_ownProperties props : readonly (ownProperties props).
Proof. destruct props; simpl; repeat readonly_step. Qed.

Lemma readonly_collect properties descriptor :
  readonly (collect properties descriptor).
Proof.
  revert descriptor. induction properties as [|p ps IH]; intros d; simpl.
  - apply readonly_ret.
  - apply readonly_bind; [apply readonly_ownProperties|]. intros own. apply IH.
Qed.

Lemma readonly_argumentsList argArray : readonly (argumentsList argArray).
Proof.
  destruct argArray as [| | | | | |l0]; simpl; [readonly_step..|].
  apply readonly_bind; [apply readonly_read|]. intros [elems|pm].
  - apply readonly_ret.
  - destruct (pm !! "length"); readonly_step.
Qed.

(** ** What each allocating or writing step does to the store *)

Lemma read_inv l h h' r :
  read l h = Some (h', r) → ∃ c, h !! l = Some c ∧ h' = h ∧ r = Normal c.
Proof. unfold read. destruct (h !! l) as [c|]; [|done]. intros [= <- <-]. eauto. Qed.

Lemma write_inv l c h h' r :
  write l c h = Some (h', r) →
  (l < length h)%nat ∧ h' = <[l := c]> h ∧ r = Normal tt.
Proof. unfold write. case_decide; [|done]. by intros [= <- <-]. Qed.

Lemma filter_isTruthyType_inv v h h' kept :
  filter_isTruthyType v h = Some (h', Normal kept) →
  ∃ a elems, v = SRef a ∧ h !! a = Some (CArray elems)
             ∧ h' = h ++ [CArray (List.filter isTruthyType elems)]
             ∧ kept = SRef (length h).
Proof.
  destruct v as [| | | | | |a]; simpl; try done.
  intros (h1 & r1 & (c & Hc & -> & ->)%read_inv & H)%St_bind_inv.
  destruct c as [elems|props].
  - apply St_bind_inv in H as (h2 & r2 & [= <- <-] & [= <- <-]).
    by exists a, elems.
  - by destruct (props !! "filter").
Qed.

Lemma concat_inv this args h h' types :
  concat this args h = Some (h', Normal types) →
  ∃ parts, mapM spread (this :: args) h = Some (h, Normal parts)
           ∧ h' = h ++ [CArray (List.concat parts)]
           ∧ types = SRef (length h).
Proof.
  destruct this as [| | | | | |a]; cbn -[mapM]; try done.
  intros (h1 & r1 & Hparts & H)%St_bind_inv.
  assert (h1 = h) as -> by (eapply readonly_mapM, Hparts; apply readonly_spread).
  destruct r1 as [parts|]; [|by destruct H].
  apply St_bind_inv in H as (h2 & r2 & [= <- <-] & [= <- <-]).
  by exists parts.
Qed.

Lemma defineProperties_inv l descriptor h h' v :
  defineProperties (SRef l) descriptor h = Some (h', Normal v) →
  ∃ pm, h !! l = Some (CObject pm)
        ∧ h' = <[l := CObject (descriptor ∪ pm)]> h ∧ v = SRef l.
Proof.
  simpl. intros (h1 & r1 & (c & Hc & -> & ->)%read_inv & H)%St_bind_inv.
  destruct c as [elems|pm]; [done|].
  apply St_bind_inv in H as (h2 & r2 & (_ & -> & ->)%write_inv & [= <- <-]).
  by exists pm.
Qed.

Lemma merge_inv l properties h h' v :
  merge (SRef l) properties h = Some (h', Normal v) →
  ∃ descriptor pm,
    collect (List.filter truthy_s properties) ∅ h = Some (h, Normal descriptor)
    ∧ h !! l = Some (CObject pm)
    ∧ h' = <[l := CObject (descriptor ∪ pm)]> h ∧ v = SRef l.
Proof.
  unfold merge. intros (h1 & r1 & Hc & H)%St_bind_inv.
  assert (h1 = h) as -> by (eapply readonly_collect, Hc).
  destruct r1 as [d|]; [|by destruct H].
  apply defineProperties_inv in H as (pm & ? & ? & ?). by exists d, pm.
Qed.

Lemma set_is_inv l v h h' r :
  set_is (SRef l) v h = Some (h', r) →
  ∃ pm, h !! l = Some (CObject pm)
        ∧ h' = <[l := CObject (<["is" := v]> pm)]> h ∧ r = Normal tt.
Proof.
  simpl. intros (h1 & r1 & (c & Hc & -> & ->)%read_inv & H)%St_bind_inv.
  destruct c as [elems|pm]; [done|].
  apply write_inv in H as (_ & -> & ->). by exists pm.
Qed.

Lemma alloc_inv c h h' r :
  alloc c h = Some (h', r) → h' = h ++ [c] ∧ r = Normal (length h).
Proof. by intros [= <- <-]. Qed.

Lemma spread_array k elems h :
  h !! k = Some (CArray elems) → spread (SRef k) h = Some (h, Normal elems).
Proof. intros Hk. simpl. unfold mbind, St_bind, read. by rewrite Hk. Qed.

Lemma findTypes_fuel fuel v h h' found :
  findTypes fuel v h = Some (h', Normal found) → found ≠ v → (2 ≤ fuel)%nat.
Proof.
  destruct fuel as [|[|fuel]]; [done| |lia]. simpl.
  intros (h1 & r1 & _ & H)%St_bind_inv Hne.
  destruct r1 as [[]|]; [| |by destruct H].
  - injection H as <- <-. done.
  - apply St_bind_inv in H as (h2 & r2 & _ & H).
    destruct r2 as [i|]; [|by destruct H].
    destruct (truthy_s i); [done|]. injection H as <- <-. done.
Qed.

(** What [optional] returns: a new object whose [is] is a new array, which
    holds the names kept by the filter followed by the two added names. *)
Lemma optional_post fuel req h h' v :
  optional fuel req h = Some (h', Normal v) →
  ∃ o a pm elems,
    v = SRef o ∧ (length h ≤ o)%nat ∧ (length h ≤ a)%nat
    ∧ h' !! o = Some (CObject pm) ∧ pm !! "is" = Some (SRef a)
    ∧ h' !! a = Some (CArray (List.filter isTruthyType elems
                                ++ [SString "undefined"; SString "null"]))
    ∧ (2 ≤ fuel)%nat.
Proof.
  unfold optional.
  intros (h1 & r1 & [-> ->]%alloc_inv & H)%St_bind_inv.
  apply St_bind_inv in H as (h2 & r2 & [-> ->]%alloc_inv & H).
  apply St_bind_inv in H as (h3 & r3 & Hmerge & H).
  destruct r3 as [req'|]; [|by destruct H].
  apply merge_inv in Hmerge as (d & pm0 & _ & Htarget & -> & ->).
  apply St_bind_inv in H as (h4 & r4 & Hfind & H).
  assert (h4 = <[length (h ++ [CArray []]) := CObject (d ∪ pm0)]>
                 ((h ++ [CArray []]) ++ [CObject {["is" := SRef (length h)]}]))
    as -> by (eapply readonly_findTypes, Hfind).
  destruct r4 as [found|]; [|by destruct H].
  apply St_bind_inv in H as (h5 & r5 & Hfilter & H).
  destruct r5 as [kept|]; [|by destruct H].
  apply filter_isTruthyType_inv in Hfilter as (a & elems & -> & Ha & -> & ->).
  apply St_bind_inv in H as (h6 & r6 & Hconcat & H).
  destruct r6 as [types|]; [|by destruct H].
  apply concat_inv in Hconcat as (parts & Hparts & -> & ->).
  apply St_bind_inv in H as (h7 & r7 & Hset & H).
  apply set_is_inv in Hset as (pm & Hpm & -> & ->).
  injection H as <- <-.
  set (h3 := <[length (h ++ [CArray []]) := CObject (d ∪ pm0)]>
               ((h ++ [CArray []]) ++ [CObject {["is" := SRef (length h)]}])) in *.
  assert (length h3 = (length h + 2)%nat) as Hlen3.
  { unfold h3. rewrite length_insert, !length_app. simpl. lia. }
  assert (parts = [List.filter isTruthyType elems;
                   [SString "undefined"]; [SString "null"]]) as ->.
  { cbn -[spread] in Hparts.
    rewrite (St_bind_run _ _ _ _ _ (spread_array (length h3) _ _
               (list_lookup_middle _ _ _ _ eq_refl))) in Hparts.
    by injection Hparts as <-. }
  exists (length (h ++ [CArray []])), (length (h3 ++ [CArray (List.filter isTruthyType elems)])),
    (<["is" := SRef (length (h3 ++ [CArray (List.filter isTruthyType elems)]))]> pm), elems.
  rewrite !length_app, Hlen3. simpl.
  assert (length h + 1 < length h3 + 2)%nat as Hlt by lia.
  split_and!; [done | lia | lia | | | |].
  - apply list_lookup_insert_eq. rewrite !length_app. simpl. lia.
  - apply lookup_insert_eq.
  - rewrite list_lookup_insert_ne by lia.
    replace (length h + 2 + 1)%nat with (length (h3 ++ [CArray (List.filter isTruthyType elems)]))
      by (rewrite length_app; simpl; lia).
    by rewrite list_lookup_middle by done.
  - eapply findTypes_fuel; [done|]. intros [= ->].
    unfold h3 in Ha. rewrite list_lookup_insert_eq in Ha; [done|].
    rewrite !length_app. simpl. lia.
Qed.

(** ** Running [optional] on an object whose [is] is an array *)

Lemma read_run l c h : h !! l = Some c → read l h = Some (h, Normal c).
Proof. unfold read. by intros ->. Qed.

Lemma write_run l c h :
  (l < length h)%nat → write l c h = Some (<[l := c]> h, Normal tt).
Proof. unfold write. intros Hl. by rewrite decide_True. Qed.

Lemma merge_run o pm t pmt h :
  h !! o = Some (CObject pm) → h !! t = Some (CObject pmt) →
  merge (SRef t) [SRef o] h
  = Some (<[t := CObject ((pm ∪ ∅) ∪ pmt)]> h, Normal (SRef t)).
Proof.
  intros Ho Ht. unfold merge. simpl.
  rewrite (St_bind_run _ _ h h (pm ∪ ∅)).
  - rewrite (St_bind_run _ _ _ _ _ (read_run _ _ _ Ht)).
    rewrite (St_bind_run _ _ _ _ _ (write_run _ _ _ (lookup_lt_Some _ _ _ Ht))).
    done.
  - rewrite (St_bind_run _ _ h h pm); [done|].
    by rewrite (St_bind_run _ _ _ _ _ (read_run _ _ _ Ho)).
Qed.

Lemma findTypes_run fuel t pmt a elems h :
  h !! t = Some (CObject pmt) → pmt !! "is" = Some (SRef a) →
  h !! a = Some (CArray elems) →
  findTypes (S (S fuel)) (SRef t) h = Some (h, Normal (SRef a)).
Proof.
  intros Ht Hpm Ha.
  change (findTypes (S (S fuel)) (SRef t))
    with (b ← isArray_s (SRef t);
          if b : bool then mret (SRef t)
          else i ← get_is (SRef t);
               if truthy_s i then findTypes (S fuel) i else mret (SRef t)).
  rewrite (St_bind_run _ _ h h false).
  2:{ simpl. by rewrite (St_bind_run _ _ _ _ _ (read_run _ _ _ Ht)). }
  rewrite (St_bind_run _ _ h h (SRef a)).
  2:{ simpl. rewrite (St_bind_run _ _ _ _ _ (read_run _ _ _ Ht)).
      by rewrite Hpm. }
  simpl. rewrite (St_bind_run _ _ h h true); [done|].
  by rewrite (St_bind_run _ _ _ _ _ (read_run _ _ _ Ha)).
Qed.

Lemma filter_isTruthyType_run a elems h :
  h !! a = Some (CArray elems) →
  filter_isTruthyType (SRef a) h
  = Some (h ++ [CArray (List.filter isTruthyType elems)], Normal (SRef (length h))).
Proof.
  intros Ha. simpl. by rewrite (St_bind_run _ _ _ _ _ (read_run _ _ _ Ha)).
Qed.

Lemma concat_run k elems h :
  h !! k = Some (CArray elems) →
  concat (SRef k) [SString "undefined"; SString "null"] h
  = Some (h ++ [CArray (elems ++ [SString "undefined"; SString "null"])],
          Normal (SRef (length h))).
Proof.
  intros Hk. cbn -[spread].
  rewrite (St_bind_run _ _ h h [elems; [SString "undefined"]; [SString "null"]]).
  - done.
  - by rewrite (St_bind_run _ _ _ _ _ (spread_array _ _ _ Hk)).
Qed.

Lemma set_is_run t pmt v h :
  h !! t = Some (CObject pmt) →
  set_is (SRef t) v h
  = Some (<[t := CObject (<["is" := v]> pmt)]> h, Normal tt).
Proof.
  intros Ht. simpl. rewrite (St_bind_run _ _ _ _ _ (read_run _ _ _ Ht)).
  apply write_run. by eapply lookup_lt_Some.
Qed.

Lemma filter_isTruthyType_added (elems : list sval) :
  List.filter isTruthyType
    (List.filter isTruthyType elems ++ [SString "undefined"; SString "null"])
  = List.filter isTruthyType elems.
Proof.
  rewrite List.filter_app. simpl. rewrite app_nil_r.
  induction elems as [|x l IH]; simpl; [done|].
  destruct (isTruthyType x) eqn:Hx; simpl; [|done]. by rewrite Hx, IH.
Qed.

Lemma optional_run fuel o a pm elems h :
  h !! o = Some (CObject pm) → pm !! "is" = Some (SRef a) →
  h !! a = Some (CArray elems) → (2 ≤ fuel)%nat →
  ∃ h' o' a' pm',
    optional fuel (SRef o) h = Some (h', Normal (SRef o'))
    ∧ h' !! o' = Some (CObject pm') ∧ pm' !! "is" = Some (SRef a')
    ∧ h' !! a' = Some (CArray (List.filter isTruthyType elems
                                 ++ [SString "undefined"; SString "null"]))
    ∧ (∀ k, k ≠ "is" → pm' !! k = pm !! k).
Proof.
  intros Ho Hpm Ha Hfuel.
  destruct fuel as [|[|fuel]]; [lia..|].
  pose proof (lookup_lt_Some _ _ _ Ho) as Hlo.
  pose proof (lookup_lt_Some _ _ _ Ha) as Hla.
  set (h2 := (h ++ [CArray []]) ++ [CObject {["is" := SRef (length h)]}]).
  set (t := length (h ++ [CArray []])).
  set (pmt := (pm ∪ ∅) ∪ ({["is" := SRef (length h)]} : gmap string sval)).
  set (h3 := <[t := CObject pmt]> h2).
  set (h4 := h3 ++ [CArray (List.filter isTruthyType elems)]).
  set (h5 := h4 ++ [CArray (List.filter isTruthyType elems
                              ++ [SString "undefined"; SString "null"])]).
  assert (length h2 = length h + 2)%nat as Hl2.
  { unfold h2. rewrite !length_app. simpl. lia. }
  assert (t = length h + 1)%nat as Hlt.
  { unfold t. rewrite length_app. simpl. lia. }
  assert (length h3 = length h + 2)%nat as Hl3.
  { unfold h3. by rewrite length_insert. }
  assert (h2 !! o = Some (CObject pm)) as Ho2.
  { unfold h2. rewrite !lookup_app_l; [done|lia|]. rewrite length_app. lia. }
  assert (h2 !! t = Some (CObject {["is" := SRef (length h)]})) as Ht2.
  { unfold h2, t. by apply list_lookup_middle. }
  assert (h3 !! t = Some (CObject pmt)) as Ht3.
  { unfold h3. apply list_lookup_insert_eq. lia. }
  assert (h3 !! a = Some (CArray elems)) as Ha3.
  { unfold h3, h2. rewrite list_lookup_insert_ne by lia.
    rewrite !lookup_app_l; [done|lia|]. rewrite length_app. lia. }
  assert (pmt !! "is" = Some (SRef a)) as Hpmt.
  { unfold pmt. apply lookup_union_Some_l, lookup_union_Some_l. done. }
  assert (h5 !! t = Some (CObject pmt)) as Ht5.
  { unfold h5, h4. rewrite !lookup_app_l; [done|lia|].
    rewrite length_app. lia. }
  exists (<[t := CObject (<["is" := SRef (length h4)]> pmt)]> h5), t, (length h4),
    (<["is" := SRef (length h4)]> pmt).
  split_and!.
  - unfold optional.
    rewrite (St_bind_run _ _ h (h ++ [CArray []]) (length h) eq_refl).
    rewrite (St_bind_run _ _ (h ++ [CArray []]) h2 t eq_refl).
    rewrite (St_bind_run _ _ _ _ _ (merge_run _ _ _ _ _ Ho2 Ht2)).
    rewrite (St_bind_run _ _ _ _ _ (findTypes_run _ _ _ _ _ _ Ht3 Hpmt Ha3)).
    rewrite (St_bind_run _ _ _ _ _ (filter_isTruthyType_run _ _ _ Ha3)).
    rewrite (St_bind_run _ _ _ _ _
               (concat_run (length h3) (List.filter isTruthyType elems) h4
                  (list_lookup_middle _ _ _ _ eq_refl))).
    by rewrite (St_bind_run _ _ _ _ _ (set_is_run _ _ _ _ Ht5)).
  - apply list_lookup_insert_eq. by eapply lookup_lt_Some.
  - apply lookup_insert_eq.
  - rewrite list_lookup_insert_ne.
    + unfold h5. by apply list_lookup_middle.
    + unfold h4. rewrite length_app. simpl. lia.
  - intros k Hk. rewrite lookup_insert_ne by done. unfold pmt.
    rewrite (lookup_union_l _ _ k).
    + by rewrite lookup_union_l by apply lookup_empty.
    + by rewrite lookup_singleton_ne.
Qed.

(** ** What [required] and [either] return *)

Lemma collect_inv_last last pml descriptor h h' d :
  h !! last = Some (CObject pml) →
  collect [SRef last] descriptor h = Some (h', Normal d) →
  d = pml ∪ descriptor.
Proof.
  intros Hl. simpl.
  rewrite (St_bind_run _ _ h h pml).
  - by intros [= _ <-].
  - by rewrite (St_bind_run _ _ _ _ _ (read_run _ _ _ Hl)).
Qed.

Lemma required_post fuel req h h' v :
  required fuel req h = Some (h', Normal v) →
  ∃ o a pm elems,
    v = SRef o ∧ (length h ≤ o)%nat ∧ (length h ≤ a)%nat
    ∧ h' !! o = Some (CObject pm) ∧ pm !! "is" = Some (SRef a)
    ∧ h' !! a = Some (CArray elems).
Proof.
  unfold required.
  intros (h0 & r0 & Hfind & H)%St_bind_inv.
  assert (h0 = h) as -> by (eapply readonly_findTypes, Hfind).
  destruct r0 as [found|]; [|by destruct H].
  apply St_bind_inv in H as (h1 & r1 & Htypes & H).
  destruct r1 as [types|]; [|by destruct H].
  assert (∃ elems, h1 = h ++ [CArray elems] ∧ types = SRef (length h))
    as (elems & -> & ->).
  { destruct (truthy_s found).
    - apply filter_isTruthyType_inv in Htypes as (a & es & _ & _ & -> & ->).
      eauto.
    - apply St_bind_inv in Htypes as (h2 & r2 & [-> ->]%alloc_inv & [= <- <-]).
      eauto. }
  apply St_bind_inv in H as (h2 & r2 & [-> ->]%alloc_inv & H).
  apply St_bind_inv in H as (h3 & r3 & [-> ->]%alloc_inv & H).
  apply merge_inv in H as (d & pm0 & Hcollect & Htarget & -> & ->).
  set (h3 := ((h ++ [CArray elems]) ++ [CObject ∅])
               ++ [CObject {["is" := SRef (length h)]}]) in *.
  assert (h3 !! length ((h ++ [CArray elems]) ++ [CObject ∅])
          = Some (CObject {["is" := SRef (length h)]})) as Hlast.
  { unfold h3. by apply list_lookup_middle. }
  assert (d !! "is" = Some (SRef (length h))) as Hd.
  { simpl in Hcollect. destruct (truthy_s req).
    - simpl in Hcollect.
      apply St_bind_inv in Hcollect as (h4 & r4 & Hown & Hcollect).
      assert (h4 = h3) as -> by (eapply readonly_ownProperties, Hown).
      destruct r4 as [own|]; [|by destruct Hcollect].
      apply (collect_inv_last _ _ _ _ _ _ Hlast) in Hcollect as ->.
      apply lookup_union_Some_l, lookup_singleton_eq.
    - apply (collect_inv_last _ _ _ _ _ _ Hlast) in Hcollect as ->.
      apply lookup_union_Some_l, lookup_singleton_eq. }
  exists (length (h ++ [CArray elems])), (length h), (d ∪ pm0), elems.
  split_and!; [done | rewrite length_app; lia | lia | | |].
  - apply list_lookup_insert_eq. by eapply lookup_lt_Some.
  - by apply lookup_union_Some_l.
  - rewrite list_lookup_insert_ne by (rewrite length_app; simpl; lia).
    unfold h3. rewrite <- !app_assoc. by apply list_lookup_middle.
Qed.

Lemma reduce_inv items result elems h h' r :
  h !! result = Some (CArray elems) →
  reduce items result h = Some (h', r) →
  h' = <[result := CArray (foldl addNew elems items)]> h ∧ r = Normal tt.
Proof.
  revert elems h. induction items as [|item rest IH]; intros elems h Hres; simpl.
  - intros [= <- <-]. split; [|done]. symmetry. by apply list_insert_id.
  - intros (h1 & r1 & Hpush & H)%St_bind_inv.
    assert (h1 = <[result := CArray (addNew elems item)]> h ∧ r1 = Normal tt)
      as [-> ->].
    { unfold pushNew in Hpush.
      rewrite (St_bind_run _ _ _ _ _ (read_run _ _ _ Hres)) in Hpush.
      unfold addNew. destruct (negb _).
      - by apply write_inv in Hpush as (_ & -> & ->).
      - injection Hpush as <- <-. split; [|done].
        symmetry. by apply list_insert_id. }
    apply IH with (elems := addNew elems item) in H as [-> ->].
    + split; [|done]. by rewrite list_insert_insert_eq.
    + apply list_lookup_insert_eq. by eapply lookup_lt_Some.
Qed.

Lemma concatApply_inv arrays h h' combined :
  concatApply arrays h = Some (h', Normal combined) →
  ∃ items, h' = (h ++ [CArray []]) ++ [CArray items]
           ∧ combined = SRef (length (h ++ [CArray []])).
Proof.
  unfold concatApply.
  intros (h1 & r1 & [-> ->]%alloc_inv & H)%St_bind_inv.
  destruct arrays as [|this rest]; [done|].
  apply St_bind_inv in H as (h2 & r2 & Hargs & H).
  assert (h2 = h ++ [CArray []]) as ->.
  { destruct rest.
    - eapply readonly_ret, Hargs.
    - eapply readonly_argumentsList, Hargs. }
  destruct r2 as [args|]; [|by destruct H].
  apply concat_inv in H as (parts & _ & -> & ->). eauto.
Qed.

Lemma union_inv arrays h h' v :
  union arrays h = Some (h', Normal v) →
  ∃ h2 c items,
    concatApply arrays h = Some (h2, Normal (SRef c))
    ∧ h2 !! c = Some (CArray items)
    ∧ h' = h2 ++ [CArray (foldl addNew [] items)]
    ∧ v = SRef (length h2) ∧ (length h ≤ length h2)%nat.
Proof.
  unfold union. intros (h2 & r2 & Hcombined & H)%St_bind_inv.
  destruct r2 as [combined|]; [|by destruct H].
  destruct (concatApply_inv _ _ _ _ Hcombined) as (items & -> & ->).
  set (h2 := (h ++ [CArray []]) ++ [CArray items]) in *.
  assert (h2 !! length (h ++ [CArray []]) = Some (CArray items)) as Hc.
  { unfold h2. by apply list_lookup_middle. }
  rewrite (St_bind_run _ _ _ _ _ (spread_array _ _ _ Hc)) in H.
  apply St_bind_inv in H as (h3 & r3 & [-> ->]%alloc_inv & H).
  apply St_bind_inv in H as (h4 & r4 & Hreduce & H).
  apply (reduce_inv _ _ []) in Hreduce as [-> ->];
    [|by apply list_lookup_middle].
  injection H as <- <-.
  exists h2, (length (h ++ [CArray []])), items.
  split_and!; [done..| | done |].
  - replace (length h2) with (length h2 + 0)%nat by lia.
    by rewrite insert_app_r.
  - unfold h2. rewrite !length_app. lia.
Qed.

Lemma either_post fuel types h h' v :
  either fuel types h = Some (h', Normal v) →
  ∃ a elems, v = SRef a ∧ (length h ≤ a)%nat ∧ h' !! a = Some (CArray elems).
Proof.
  unfold either. intros (h1 & r1 & Hmap & H)%St_bind_inv.
  assert (h1 = h) as ->.
  { eapply readonly_mapM, Hmap. intros a. apply readonly_findTypes. }
  destruct r1 as [arrays|]; [|by destruct H].
  apply union_inv in H as (h2 & c & items & _ & _ & -> & -> & Hlen).
  exists (length h2), (foldl addNew [] items).
  split_and!; [done..|]. by apply list_lookup_middle.
Qed.

(** ** The combinators *)

Lemma count_occ_filter_isTruthyType (elems : list sval) (x : sval) :
  isTruthyType x = false →
  count_occ sval_eq_dec (List.filter isTruthyType elems) x = 0%nat.
Proof.
  intros Hx. apply count_occ_not_In. intros [_ Hin]%List.filter_In. congruence.
Qed.

Lemma typesOf_object h o pm a elems :
  h !! o = Some (CObject pm) → pm !! "is" = Some (SRef a) →
  h !! a = Some (CArray elems) → typesOf h (SRef o) = Some (a, elems).
Proof.
  intros Ho Hpm Ha. unfold typesOf, propertiesAt.
  assert (arrayAt h (SRef o) = None) as -> by (unfold arrayAt; by rewrite Ho).
  rewrite Ho. simpl. rewrite Hpm. simpl. unfold arrayAt. by rewrite Ha.
Qed.



(** C10: [required], [optional] and [either] leave every cell that was in
    the store before the call as it was, whether they return or throw: the
    argument requirements, their arrays of type names and everything
    reachable from them are unchanged.  When they return, the array of
    type names of the result (the result itself for [either], its [is] for
    the other two) is at a location that was not in the store before the
    call. *)
Theorem combinators_do_not_mutate
    (fuel : nat) (h h' : store) (r : completion sval) :
  (∃ req, required fuel req h = Some (h', r))
  ∨ (∃ req, optional fuel req h = Some (h', r))
  ∨ (∃ types, either fuel types h = Some (h', r)) →
  (∀ l c, h !! l = Some c → h' !! l = Some c)
  ∧ (∀ v, r = Normal v →
          ∃ a elems, typesOf h' v = Some (a, elems) ∧ h !! a = None).
Proof.
  intros [[req H]|[[req H]|[types H]]].
  - split; [by eapply frame_of_keeps, H; apply keeps_required|].
    intros v ->.
    apply required_post in H as (o & a & pm & elems & -> & _ & Hla & Ho & Hpm & Ha).
    exists a, elems. split; [by eapply typesOf_object | by apply lookup_ge_None].
  - split; [by eapply frame_of_keeps, H; apply keeps_optional|].
    intros v ->.
    apply optional_post
      in H as (o & a & pm & elems & -> & _ & Hla & Ho & Hpm & Ha & _).
    eexists a, _. split; [by eapply typesOf_object | by apply lookup_ge_None].
  - split; [by eapply frame_of_keeps, H; apply keeps_either|].
    intros v ->.
    apply either_post in H as (a & elems & -> & Hla & Ha).
    exists a, elems. split; [|by apply lookup_ge_None].
    unfold typesOf, arrayAt. by rewrite Ha.
Qed.

Lemma combinators_do_not_mutate_witness :
  (∃ h' r,
     required 2 (SRef 1%nat)
       [CArray [SString "string"; SString "undefined"; SString "null"];
        CObject {[ "is" := SRef 0%nat ]}]
     = Some (h', r)
     ∧ (∀ l c, [CArray [SString "string"; SString "undefined"; SString "null"];
                CObject {[ "is" := SRef 0%nat ]}] !! l = Some c
               → h' !! l = Some c)
     ∧ (∀ v, r = Normal v →
             ∃ a elems, typesOf h' v = Some (a, elems)
                        ∧ [CArray [SString "string"; SString "undefined";
                                   SString "null"];
                           CObject {[ "is" := SRef 0%nat ]}] !! a = None))
  ∧ (∃ h' r,
       optional 2 (SRef 1%nat)
         [CArray [SString "string"]; CObject {[ "is" := SRef 0%nat ]}]
       = Some (h', r)
       ∧ (∀ l c, [CArray [SString "string"];
                  CObject {[ "is" := SRef 0%nat ]}] !! l = Some c
                 → h' !! l = Some c)
       ∧ (∀ v, r = Normal v →
               ∃ a elems, typesOf h' v = Some (a, elems)
                          ∧ [CArray [SString "string"];
                             CObject {[ "is" := SRef 0%nat ]}] !! a = None))
  ∧ (∃ h' r,
       either 2 [SRef 1%nat; SRef 2%nat]
         [CArray [SString "string"]; CObject {[ "is" := SRef 0%nat ]};
          CArray [SString "number"]]
       = Some (h', r)
       ∧ (∀ l c, [CArray [SString "string"]; CObject {[ "is" := SRef 0%nat ]};
                  CArray [SString "number"]] !! l = Some c
                 → h' !! l = Some c)
       ∧ (∀ v, r = Normal v →
               ∃ a elems, typesOf h' v = Some (a, elems)
                          ∧ [CArray [SString "string"];
                             CObject {[ "is" := SRef 0%nat ]};
                             CArray [SString "number"]] !! a = None)).
Proof.
  split_and!.
  - eexists _, _. split; [vm_compute; reflexivity|].
    apply (combinators_do_not_mutate 2). left. exists (SRef 1%nat).
    vm_compute. reflexivity.
  - eexists _, _. split; [vm_compute; reflexivity|].
    apply (combinators_do_not_mutate 2). right. left. exists (SRef 1%nat).
    vm_compute. reflexivity.
  - eexists _, _. split; [vm_compute; reflexivity|].
    apply (combinators_do_not_mutate 2). right. right.
    exists [SRef 1%nat; SRef 2%nat]. vm_compute. reflexivity.
Defined.

(** C1: called with the three arrays [['string']], [['number']] and
    [['boolean']], [either] returns a new array holding [string] and
    [number] only: the third argument is left out, because [apply] is
    handed the first array as receiver, the second as argument list, and
    ignores the rest. *)
Theorem either_three_arguments :
  either 1 [SRef 0%nat; SRef 1%nat; SRef 2%nat]
    [CArray [SString "string"]; CArray [SString "number"];
     CArray [SString "boolean"]]
  = Some ([CArray [SString "string"]; CArray [SString "number"];
           CArray [SString "boolean"];
           CArray [];
           CArray [SString "string"; SString "number"];
           CArray [SString "string"; SString "number"]],
          Normal (SRef 5%nat))
  ∧ either 1 [SRef 0%nat; SRef 1%nat]
      [CArray [SString "string"]; CArray [SString "number"];
       CArray [SString "boolean"]]
    = either 1 [SRef 0%nat; SRef 1%nat; SRef 2%nat]
        [CArray [SString "string"]; CArray [SString "number"];
         CArray [SString "boolean"]]
  ∧ SString "boolean" ∉ [SString "string"; SString "number"].
Proof.
  split_and!; [done..|].
  intros H. apply bitnot_truthy_indexOf in H. done.
Qed.

(** ** [either] on two or more arguments *)

Lemma addNew_spec (elems : list sval) (item : sval) :
  addNew elems item = if decide (item ∈ elems) then elems else elems ++ [item].
Proof.
  unfold addNew. destruct (bitnot_truthy (indexOf elems item)) eqn:Hi; simpl.
  - apply bitnot_truthy_indexOf in Hi. by rewrite decide_True.
  - rewrite decide_False; [done|]. intros Hin.
    apply bitnot_truthy_indexOf in Hin. congruence.
Qed.

Lemma foldl_addNew_extends (items elems : list sval) :
  ∃ added, foldl addNew elems items = elems ++ added ∧ sublist added items.
Proof.
  revert elems. induction items as [|item rest IH]; intros elems; simpl.
  - exists []. by rewrite app_nil_r.
  - destruct (IH (addNew elems item)) as (added & -> & Hsub).
    rewrite addNew_spec. case_decide.
    + exists added. split; [done | by apply sublist_cons].
    + exists (item :: added). rewrite <- app_assoc. split; [done|].
      by apply sublist_skip.
Qed.

Lemma elem_of_foldl_addNew (items elems : list sval) (x : sval) :
  x ∈ foldl addNew elems items ↔ x ∈ elems ∨ x ∈ items.
Proof.
  revert elems. induction items as [|item rest IH]; intros elems; simpl.
  - split; [eauto|]. intros [?|[]%elem_of_nil]; done.
  - rewrite IH, addNew_spec, elem_of_cons. case_decide.
    + split; [naive_solver|]. intros [?|[->|?]]; eauto.
    + rewrite elem_of_app, list_elem_of_singleton. naive_solver.
Qed.

Lemma NoDup_foldl_addNew (items elems : list sval) :
  NoDup elems → NoDup (foldl addNew elems items).
Proof.
  revert elems. induction items as [|item rest IH]; intros elems Hnd; simpl.
  - done.
  - apply IH. rewrite addNew_spec. case_decide; [done|].
    apply NoDup_app. split_and!; [done | | apply NoDup_singleton].
    intros x Hx ->%list_elem_of_singleton. done.
Qed.

Lemma reduce_run items result elems h :
  h !! result = Some (CArray elems) →
  reduce items result h
  = Some (<[result := CArray (foldl addNew elems items)]> h, Normal tt).
Proof.
  revert elems h. induction items as [|item rest IH]; intros elems h Hres; simpl.
  - by rewrite list_insert_id.
  - rewrite (St_bind_run _ _ h (<[result := CArray (addNew elems item)]> h) tt).
    + rewrite (IH (addNew elems item)).
      * by rewrite list_insert_insert_eq.
      * apply list_lookup_insert_eq. by eapply lookup_lt_Some.
    + unfold pushNew. rewrite (St_bind_run _ _ _ _ _ (read_run _ _ _ Hres)).
      unfold addNew. destruct (negb _).
      * apply write_run. by eapply lookup_lt_Some.
      * by rewrite list_insert_id.
Qed.

Lemma mapM_spread_strings (names : list string) (h : store) :
  mapM spread (SString <$> names) h
  = Some (h, Normal ((λ s, [SString s]) <$> names)).
Proof.
  induction names as [|s names IH]; [done|].
  cbn -[spread]. rewrite (St_bind_run _ _ h h [SString s] eq_refl).
  by rewrite (St_bind_run _ _ _ _ _ IH).
Qed.

Lemma concat_singletons (names : list string) :
  List.concat ((λ s, [SString s]) <$> names) = SString <$> names.
Proof. induction names as [|s names IH]; [done|]. simpl. f_equal. exact IH. Qed.

(** With two or more arguments, of which the first two resolve to arrays,
    the second one of type names, the result holds the distinct elements of
    the first two arrays, in order of first occurrence, whatever the other
    arguments are. *)
Lemma either_first_two fuel t1 t2 rest h a1 a2 elems1 names2 arrays :
  findTypes fuel t1 h = Some (h, Normal (SRef a1)) →
  h !! a1 = Some (CArray elems1) →
  findTypes fuel t2 h = Some (h, Normal (SRef a2)) →
  h !! a2 = Some (CArray (SString <$> names2)) →
  mapM (findTypes fuel) rest h = Some (h, Normal arrays) →
  either fuel (t1 :: t2 :: rest) h
  = Some (h ++ [CArray [];
                CArray (elems1 ++ (SString <$> names2));
                CArray (foldl addNew [] (elems1 ++ (SString <$> names2)))],
          Normal (SRef (length h + 2)%nat)).
Proof.
  intros H1 Ha1 H2 Ha2 Hrest. unfold either.
  rewrite (St_bind_run _ _ h h (SRef a1 :: SRef a2 :: arrays)).
  2:{ cbn -[findTypes]. rewrite (St_bind_run _ _ _ _ _ H1).
      rewrite (St_bind_run _ _ h h (SRef a2 :: arrays)); [done|].
      rewrite (St_bind_run _ _ _ _ _ H2).
      by rewrite (St_bind_run _ _ _ _ _ Hrest). }
  pose proof (lookup_lt_Some _ _ _ Ha1) as Hl1.
  pose proof (lookup_lt_Some _ _ _ Ha2) as Hl2.
  set (h1 := h ++ [CArray []]).
  set (h2 := h1 ++ [CArray (elems1 ++ (SString <$> names2))]).
  assert (concatApply (SRef a1 :: SRef a2 :: arrays) h
          = Some (h2, Normal (SRef (length h1)))) as Hcombined.
  { unfold concatApply.
    rewrite (St_bind_run _ _ h h1 (length h) eq_refl).
    rewrite (St_bind_run _ _ h1 h1 (SString <$> names2)).
    2:{ simpl. rewrite (St_bind_run _ _ h1 h1 (CArray (SString <$> names2))).
        - done.
        - apply read_run. unfold h1. by rewrite lookup_app_l. }
    cbn -[mapM].
    rewrite (St_bind_run _ _ h1 h1 (elems1 :: ((λ s, [SString s]) <$> names2))).
    - simpl. by rewrite concat_singletons.
    - cbn -[spread].
      rewrite (St_bind_run _ _ h1 h1 elems1).
      + by rewrite (St_bind_run _ _ _ _ _ (mapM_spread_strings names2 h1)).
      + apply spread_array. unfold h1. by rewrite lookup_app_l. }
  unfold union. rewrite (St_bind_run _ _ _ _ _ Hcombined).
  rewrite (St_bind_run _ _ h2 h2 (elems1 ++ (SString <$> names2))).
  2:{ apply spread_array. unfold h2. by apply list_lookup_middle. }
  rewrite (St_bind_run _ _ h2 (h2 ++ [CArray []]) (length h2) eq_refl).
  rewrite (St_bind_run _ _ _ _ _
             (reduce_run (elems1 ++ (SString <$> names2)) (length h2) []
                (h2 ++ [CArray []]) (list_lookup_middle _ _ _ _ eq_refl))).
  unfold mret, St_ret. f_equal. f_equal.
  - replace (length h2) with (length h2 + 0)%nat at 1 by lia.
    rewrite insert_app_r. unfold h2, h1. by rewrite <- !app_assoc.
  - f_equal. f_equal. unfold h2, h1. rewrite !length_app. simpl. lia.
Qed.

Lemma either_ignores_rest fuel t1 t2 rest h a1 a2 elems1 names2 arrays :
  findTypes fuel t1 h = Some (h, Normal (SRef a1)) →
  h !! a1 = Some (CArray elems1) →
  findTypes fuel t2 h = Some (h, Normal (SRef a2)) →
  h !! a2 = Some (CArray (SString <$> names2)) →
  mapM (findTypes fuel) rest h = Some (h, Normal arrays) →
  either fuel (t1 :: t2 :: rest) h = either fuel [t1; t2] h.
Proof.
  intros H1 Ha1 H2 Ha2 Hrest.
  rewrite (either_first_two _ _ _ _ _ _ _ _ _ _ H1 Ha1 H2 Ha2 Hrest).
  by rewrite (either_first_two _ _ _ [] _ _ _ _ _ [] H1 Ha1 H2 Ha2 eq_refl).
Qed.

(** ** Fuel

    The fuel only bounds the loop of [findTypes]: a run that ends with some
    fuel ends the same way with more. *)

Lemma St_bind_eq {A B} (m : St A) (k : A → St B) (h h1 : store)
    (r1 : completion A) :
  m h = Some (h1, r1) →
  (m ≫= k) h = match r1 with
               | Normal a => k a h1
               | Throw e => Some (h1, Throw e)
               end.
Proof. unfold mbind, St_bind. by intros ->. Qed.

Lemma findTypes_more_fuel fuel v h x :
  findTypes fuel v h = Some x → findTypes (S fuel) v h = Some x.
Proof.
  revert v h. induction fuel as [|fuel IH]; intros v h; [done|].
  change (findTypes (S (S fuel)) v)
    with (b ← isArray_s v;
          if b : bool then mret v
          else i ← get_is v;
               if truthy_s i then findTypes (S fuel) i else mret v).
  change (findTypes (S fuel) v)
    with (b ← isArray_s v;
          if b : bool then mret v
          else i ← get_is v;
               if truthy_s i then findTypes fuel i else mret v).
  destruct x as [h' r].
  intros (h1 & r1 & Hb & H)%St_bind_inv. rewrite (St_bind_eq _ _ _ _ _ Hb).
  destruct r1 as [[]|]; [done| |by destruct H as [-> ->]].
  apply St_bind_inv in H as (h2 & r2 & Hi & H). rewrite (St_bind_eq _ _ _ _ _ Hi).
  destruct r2 as [i|]; [|by destruct H as [-> ->]].
  destruct (truthy_s i); [by apply IH | done].
Qed.

Lemma mapM_findTypes_more_fuel fuel types h x :
  mapM (findTypes fuel) types h = Some x →
  mapM (findTypes (S fuel)) types h = Some x.
Proof.
  revert h x. induction types as [|t types IH]; intros h [h' r]; [done|].
  cbn -[findTypes].
  intros (h1 & r1 & Ht & H)%St_bind_inv.
  rewrite (St_bind_eq _ _ _ _ _ (findTypes_more_fuel _ _ _ _ Ht)).
  destruct r1 as [y|]; [|by destruct H as [-> ->]].
  apply St_bind_inv in H as (h2 & r2 & Hts & H).
  rewrite (St_bind_eq _ _ _ _ _ (IH _ _ Hts)).
  destruct r2; [done | by destruct H as [-> ->]].
Qed.

Lemma either_more_fuel fuel types h x :
  either fuel types h = Some x → either (S fuel) types h = Some x.
Proof.
  destruct x as [h' r]. unfold either.
  intros (h1 & r1 & Hm & H)%St_bind_inv.
  rewrite (St_bind_eq _ _ _ _ _ (mapM_findTypes_more_fuel _ _ _ _ Hm)).
  destruct r1; [done | by destruct H as [-> ->]].
Qed.

Lemma required_more_fuel fuel req h x :
  required fuel req h = Some x → required (S fuel) req h = Some x.
Proof.
  destruct x as [h' r]. unfold required.
  intros (h1 & r1 & Hf & H)%St_bind_inv.
  rewrite (St_bind_eq _ _ _ _ _ (findTypes_more_fuel _ _ _ _ Hf)).
  destruct r1; [done | by destruct H as [-> ->]].
Qed.

Lemma optional_more_fuel fuel req h x :
  optional fuel req h = Some x → optional (S fuel) req h = Some x.
Proof.
  destruct x as [h' r]. unfold optional.
  intros (h1 & r1 & Ha & H)%St_bind_inv. rewrite (St_bind_eq _ _ _ _ _ Ha).
  destruct r1 as [empty|]; [|by destruct H as [-> ->]].
  apply St_bind_inv in H as (h2 & r2 & Ht & H). rewrite (St_bind_eq _ _ _ _ _ Ht).
  destruct r2 as [target|]; [|by destruct H as [-> ->]].
  apply St_bind_inv in H as (h3 & r3 & Hm & H). rewrite (St_bind_eq _ _ _ _ _ Hm).
  destruct r3 as [req'|]; [|by destruct H as [-> ->]].
  apply St_bind_inv in H as (h4 & r4 & Hf & H).
  rewrite (St_bind_eq _ _ _ _ _ (findTypes_more_fuel _ _ _ _ Hf)).
  destruct r4; [done | by destruct H as [-> ->]].
Qed.

(** * Further properties of the engine *)

(** ** The type classifier *)


(** ** The type check *)

(** X2: let [is] be an array of names of the vocabulary, let the keys
    before [key] pass, and let [v] be the value after the default and the
    transform.  If the type of [v] is not in the array, the call ends with
    the [RequirementError] built for [key], and the predicate is not called
    for this entry.  If it is in the array and there is no predicate, the
    key passes, and [v] is what is assigned when the key is included. *)
Theorem type_check_decides
    (options : option (gmap string value))
    (before after : list (string * requirement))
    (key : string) (req : requirement) (acc : gmap string value)
    (types : list string) (v : value) (mapThrew : bool) :
  outcome (validateOptions options before) = Normal acc →
  req_is req = Some (TypeNames types) →
  Forall (λ t, t ∈ VALID_TYPES) types →
  outcome (applyMap key req (applyDefault (default ∅ options) key req).1)
  = Normal (v, mapThrew) →
  (getTypeOf v ∉ types →
   (∃ m, RequirementError key req = Normal (RequirementErrorObj m)
         ∧ outcome (validateOptions options (before ++ (key, req) :: after))
           = Throw (RequirementErrorObj m))
   ∧ ∀ arg, OkCalled key arg ∉ events (validateKey (default ∅ options) key req))
  ∧ (getTypeOf v ∈ types → req_ok req = None →
     outcome (validateKey (default ∅ options) key req)
     = Normal (if (applyDefault (default ∅ options) key req).2
                  || (bool_decide (is_Some (req_map req)) && negb mapThrew
                      && negb (is_undefined v))
               then Some v else None)).
Proof.
  unfold validateOptions. intros Hb Hreq Hvalid Hmap. split.
  - intros Hty.
    assert (outcome (checkIs key req v)
            = outcome (throwRequirementError (A:=bool) key req)) as Hi.
    { rewrite outcome_checkIs, Hreq. simpl.
      rewrite (checkTypeNames_valid _ Hvalid).
      by rewrite (proj2 (indexOf_negative types (getTypeOf v)) Hty). }
    destruct (RequirementError_Normal key req) as [m Hm]; [eauto|].
    split.
    + exists m. split; [done|].
      rewrite (outcome_validateLoop_reach _ _ _ _ _ _ _ Hb).
      rewrite validateKey_unfold, outcome_bind, Hmap. simpl.
      by rewrite outcome_bind, Hi, outcome_throwRequirementError, Hm.
    + intros arg. rewrite events_validateKey, Hmap, events_applyMap. simpl.
      rewrite Hi, outcome_throwRequirementError, app_nil_r.
      destruct (req_map req); [|apply not_elem_of_nil].
      by intros [=]%list_elem_of_singleton.
  - intros Hty Hok.
    rewrite validateKey_unfold, outcome_bind, Hmap. simpl.
    rewrite outcome_bind, outcome_checkIs, Hreq. simpl.
    rewrite (checkTypeNames_valid _ Hvalid).
    destruct (_ <? 0) eqn:Hlt; [by apply indexOf_negative in Hlt|].
    rewrite outcome_bind, outcome_checkOk, Hok.
    by destruct (_ || _).
Qed.

Lemma type_check_decides_witness :
  (∃ m, RequirementError "foo"
          (Requirement None None (Some (TypeNames ["string"])) None None)
        = Normal (RequirementErrorObj m)
        ∧ outcome (validateOptions (Some {[ "foo" := VNumber 5 ]})
                     [("foo", Requirement None None
                                (Some (TypeNames ["string"])) None None)])
          = Throw (RequirementErrorObj m))
  ∧ outcome (validateKey {[ "foo" := VString "x" ]} "foo"
               (Requirement None None (Some (TypeNames ["string"])) None None))
    = Normal (Some (VString "x")).
Proof.
  split.
  - refine (proj1 (proj1 (type_check_decides (Some {[ "foo" := VNumber 5 ]})
                            [] [] "foo"
                            (Requirement None None (Some (TypeNames ["string"]))
                               None None)
                            ∅ ["string"] (VNumber 5) false
                            eq_refl eq_refl _ eq_refl) _)).
    + repeat constructor.
    + intros H. apply bitnot_truthy_indexOf in H. discriminate H.
  - refine (proj2 (type_check_decides (Some {[ "foo" := VString "x" ]})
                     [] [] "foo"
                     (Requirement None None (Some (TypeNames ["string"]))
                        None None)
                     ∅ ["string"] (VString "x") false
                     eq_refl eq_refl _ eq_refl) _ eq_refl).
    + repeat constructor.
    + left.
Defined.

(** X3: let [is] be a requirement object whose own [is] is an array of
    names of the vocabulary, let [msg] be missing or empty, and let the
    keys before [key] pass.  If the type of the value after the default
    and the transform is not in the array, the call ends with a
    [TypeError], not with a [RequirementError]: the constructor of the
    error calls [join] on the requirement object. *)
Theorem nested_mismatch_is_a_TypeError
    (options : option (gmap string value))
    (before after : list (string * requirement))
    (key : string) (req r : requirement) (acc : gmap string value)
    (types : list string) (v : value) (mapThrew : bool) :
  outcome (validateOptions options before) = Normal acc →
  req_is req = Some (Nested r) →
  req_is r = Some (TypeNames types) →
  Forall (λ t, t ∈ VALID_TYPES) types →
  req_msg req = None ∨ req_msg req = Some EmptyString →
  outcome (applyMap key req (applyDefault (default ∅ options) key req).1)
  = Normal (v, mapThrew) →
  getTypeOf v ∉ types →
  ∃ m, outcome (validateOptions options (before ++ (key, req) :: after))
       = Throw (TypeErrorObj m)
       ∧ instanceofRequirementError (TypeErrorObj m) = false.
Proof.
  unfold validateOptions. intros Hb Hreq Hr Hvalid Hmsg Hmap Hty.
  exists "requirement.is.join is not a function". split; [|done].
  rewrite (outcome_validateLoop_reach _ _ _ _ _ _ _ Hb).
  rewrite validateKey_unfold, outcome_bind, Hmap. simpl.
  rewrite outcome_bind, outcome_checkIs, Hreq. simpl. rewrite Hr.
  rewrite (checkTypeNames_valid _ Hvalid).
  rewrite (proj2 (indexOf_negative types (getTypeOf v)) Hty).
  rewrite outcome_throwRequirementError. unfold RequirementError.
  by rewrite (proj2 (truthy_string_false _) Hmsg), Hreq.
Qed.

Lemma nested_mismatch_is_a_TypeError_witness :
  ∃ m, outcome (validateOptions (Some {[ "foo" := VNumber 5 ]})
                  ([] ++ ("foo", Requirement None None
                                   (Some (Nested exports_string)) None None)
                      :: []))
       = Throw (TypeErrorObj m)
       ∧ instanceofRequirementError (TypeErrorObj m) = false.
Proof.
  apply (nested_mismatch_is_a_TypeError (Some {[ "foo" := VNumber 5 ]}) [] []
           "foo" (Requirement None None (Some (Nested exports_string)) None None)
           exports_string ∅ ["string"; "undefined"; "null"] (VNumber 5) false).
  - reflexivity.
  - reflexivity.
  - reflexivity.
  - repeat constructor.
  - left. reflexivity.
  - reflexivity.
  - intros H. apply bitnot_truthy_indexOf in H. discriminate H.
Defined.

(** ** What the result holds *)

Lemma validateKey_plain options key req r :
  req_map req = None → req_dflt req = None →
  outcome (validateKey options key req) = Normal r → r = options !! key.
Proof.
  intros Hmap Hd. rewrite validateKey_unfold, outcome_bind, outcome_applyMap.
  unfold applyDefault. rewrite Hmap, Hd. simpl. rewrite outcome_bind.
  destruct (outcome (checkIs _ _ _)); [|done]. rewrite outcome_bind.
  destruct (outcome (checkOk _ _ _ _)); [|done].
  rewrite orb_false_r. case_bool_decide as Hk; intros [= <-].
  - by destruct Hk as [v ->].
  - destruct (options !! key); [|done]. destruct Hk. eauto.
Qed.

Lemma validateLoop_plain options requirements acc result :
  Forall (λ kr, req_map kr.2 = None ∧ req_dflt kr.2 = None) requirements →
  outcome (validateLoop options requirements acc) = Normal result →
  ∀ k, result !! k
       = if decide (k ∈ requirements.*1)
         then match options !! k with Some v => Some v | None => acc !! k end
         else acc !! k.
Proof.
  revert acc. induction requirements as [|[k0 r0] rest IH]; intros acc Hall.
  - intros [= <-] k. case_decide as Hk; [by apply elem_of_nil in Hk | done].
  - apply Forall_cons in Hall as [[Hmap Hd] Hall]. simpl in *.
    rewrite outcome_bind.
    destruct (outcome (validateKey options k0 r0)) as [r|] eqn:Hk; [|done].
    apply (validateKey_plain _ _ _ _ Hmap Hd) in Hk as ->.
    intros H k. rewrite (IH _ Hall H k).
    assert (assign k0 (options !! k0) acc !! k
            = if decide (k = k0)
              then match options !! k with Some v => Some v | None => acc !! k end
              else acc !! k) as Hacc.
    { case_decide as Hkk.
      - subst k. destruct (options !! k0); simpl; [apply lookup_insert_eq | done].
      - destruct (options !! k0); simpl; [by apply lookup_insert_ne | done]. }
    rewrite Hacc. clear Hacc IH H.
    destruct (decide (k = k0)) as [->|Hne];
      destruct (decide (_ ∈ rest.*1)) as [H1|H1];
      destruct (decide (_ ∈ _ :: _)) as [H2|H2]; try done.
    + by destruct (options !! k0).
    + destruct H2. left.
    + destruct H2. left.
    + destruct H2. by right.
    + apply elem_of_cons in H2 as [?|?]; done.
Qed.





(** ** The loop over the requirements *)

(** X6: the call ends at the first key that fails: when the keys before
    [key] pass and the processing of [key] throws [e], the call throws
    [e], and the calls to [map] and [ok] it has made are those of the keys
    before and of [key]; nothing of a later requirement is called, and the
    later requirements have no influence. *)
Theorem first_failure_ends_the_call
    (options : option (gmap string value))
    (before after : list (string * requirement))
    (key : string) (req : requirement) (acc : gmap string value)
    (e : thrown) :
  outcome (validateOptions options before) = Normal acc →
  outcome (validateKey (default ∅ options) key req) = Throw e →
  validateOptions options (before ++ (key, req) :: after)
  = (events (validateOptions options before)
       ++ events (validateKey (default ∅ options) key req),
     Throw e).
Proof.
  unfold validateOptions. intros Hb Hk. apply M_eq; simpl.
  - rewrite (events_validateLoop_reach _ _ _ _ _ _ _ Hb), Hk.
    by rewrite app_nil_r.
  - by rewrite (outcome_validateLoop_reach _ _ _ _ _ _ _ Hb), Hk.
Qed.

Lemma first_failure_ends_the_call_witness :
  validateOptions (Some {[ "a" := VNumber 1; "b" := VNumber 2 ]})
    ([("a", Requirement None None None (Some (λ v, v)) None)]
       ++ ("b", Requirement None None (Some (TypeNames ["string"])) None None)
       :: [("c", Requirement None (Some (λ _, Normal VNull)) None None None)])
  = (events (validateOptions (Some {[ "a" := VNumber 1; "b" := VNumber 2 ]})
               [("a", Requirement None None None (Some (λ v, v)) None)])
       ++ events (validateKey
                    (default ∅ (Some {[ "a" := VNumber 1; "b" := VNumber 2 ]}))
                    "b" (Requirement None None (Some (TypeNames ["string"]))
                           None None)),
     Throw (RequirementErrorObj
              (("The option " +:+ dq +:+ "b" +:+ dq +:+ " ")
                 +:+ "must be one of the following types: " +:+ "string"))).
Proof.
  apply (first_failure_ends_the_call
           (Some {[ "a" := VNumber 1; "b" := VNumber 2 ]})
           [("a", Requirement None None None (Some (λ v, v)) None)]
           [("c", Requirement None (Some (λ _, Normal VNull)) None None None)]
           "b" (Requirement None None (Some (TypeNames ["string"])) None None)
           {[ "a" := VNumber 1 ]}).
  - vm_compute. reflexivity.
  - vm_compute. reflexivity.
Defined.

Lemma validateKey_ext (options options' : gmap string value) key req :
  options !! key = options' !! key →
  validateKey options key req = validateKey options' key req.
Proof. intros H. unfold validateKey, applyDefault. by rewrite H. Qed.

Lemma validateLoop_ext (options options' : gmap string value)
    requirements acc :
  (∀ k, k ∈ requirements.*1 → options !! k = options' !! k) →
  validateLoop options requirements acc = validateLoop options' requirements acc.
Proof.
  revert acc. induction requirements as [|[k r] rest IH]; intros acc H; [done|].
  simpl. rewrite (validateKey_ext options options' k r) by (apply H; left).
  apply bind_ext. intros o. apply IH. intros k' Hk'. apply H. by right.
Qed.

(** X7: the call looks at the options only under the keys of the
    requirements: two options objects that agree on those keys give the
    same calls to [map] and [ok] and the same outcome, whatever else they
    hold. *)
Theorem options_outside_the_requirements_are_ignored
    (options options' : gmap string value)
    (requirements : list (string * requirement)) :
  (∀ k, k ∈ requirements.*1 → options !! k = options' !! k) →
  validateOptions (Some options) requirements
  = validateOptions (Some options') requirements.
Proof. intros H. by apply validateLoop_ext. Qed.

Lemma options_outside_the_requirements_are_ignored_witness :
  validateOptions (Some {[ "foo" := VNumber 3; "baz" := VNumber 1 ]})
    [("foo", Requirement None None (Some (TypeNames ["number"])) None None)]
  = validateOptions (Some {[ "foo" := VNumber 3 ]})
      [("foo", Requirement None None (Some (TypeNames ["number"])) None None)].
Proof.
  apply (options_outside_the_requirements_are_ignored
           {[ "foo" := VNumber 3; "baz" := VNumber 1 ]}
           {[ "foo" := VNumber 3 ]}).
  intros k Hk. apply list_elem_of_singleton in Hk. rewrite Hk.
  vm_compute. reflexivity.
Defined.

(** ** The exported requirements *)



(** ** The calls made for one key *)

(** X9: for one key the transform, when declared, is called exactly once,
    first, and with the value after the default; the predicate is called at
    most once, after it, and with what the transform left. *)
Theorem calls_made_for_one_key
    (options : gmap string value) (key : string) (req : requirement) :
  ∃ oks,
    events (validateKey options key req)
    = match req_map req with
      | Some _ => [MapCalled key (applyDefault options key req).1]
      | None => []
      end ++ oks
    ∧ (oks = []
       ∨ ∃ ok v mapThrew,
           req_ok req = Some ok
           ∧ outcome (applyMap key req (applyDefault options key req).1)
             = Normal (v, mapThrew)
           ∧ oks = [OkCalled key v]).
Proof.
  rewrite events_validateKey, events_applyMap.
  destruct (outcome (applyMap _ _ _)) as [[v mt]|] eqn:Hmap; [|eauto].
  destruct (outcome (checkIs _ _ _)) as [o|]; [|eauto].
  rewrite events_checkOk. simpl.
  destruct (req_ok req) as [ok|] eqn:Hok; [|eauto].
  destruct (_ || _); [|eauto].
  eexists. split; [done|]. right. by exists ok, v, mt.
Qed.

(** ** What a returned object guarantees *)

Lemma outcome_assigned (b : bool) (w v : value) :
  outcome (if b then mret (Some w) else mret None : M (option value))
  = Normal (Some v) → w = v.
Proof. destruct b; simpl; congruence. Qed.

Lemma validateKey_accepts options key req v :
  outcome (validateKey options key req) = Normal (Some v) →
  (∀ types, req_is req ≫= engineTypes = Some types →
     getTypeOf v ∈ types ∧ Forall (λ t, t ∈ VALID_TYPES) types)
  ∧ (∀ ok, req_ok req = Some ok →
       truthy (ok v) = true
       ∨ ((v = VUndefined ∨ v = VNull)
          ∧ ∃ types, req_is req ≫= engineTypes = Some types
                     ∧ "undefined" ∈ types ∧ "null" ∈ types)).
Proof.
  rewrite validateKey_unfold, outcome_bind.
  destruct (outcome (applyMap _ _ _)) as [[w mt]|]; [|done]. simpl.
  rewrite outcome_bind, outcome_checkIs.
  destruct (req_is req ≫= engineTypes) as [types|] eqn:Htypes.
  - destruct (checkTypeNames types) as [u|] eqn:Hnames; [|done].
    destruct (indexOf types (getTypeOf w) <? 0) eqn:Hidx.
    { by rewrite outcome_throwRequirementError. }
    rewrite outcome_bind, outcome_checkOk.
    assert (getTypeOf w ∈ types) as Hin.
    { destruct (decide (getTypeOf w ∈ types)) as [|Hn]; [done|].
      apply indexOf_negative in Hn. congruence. }
    destruct (req_ok req) as [ok|].
    + destruct ((negb _ || not_nullish w) && negb (truthy (ok w))) eqn:Hc.
      { by rewrite outcome_throwRequirementError. }
      intros Hv.
      apply outcome_assigned in Hv as ->.
      split.
      * intros ? [= <-]. split; [done|]. by eapply checkTypeNames_Normal.
      * intros ? [= <-].
        apply andb_false_iff in Hc as [Hc | Hc].
        -- right. apply orb_false_iff in Hc as [Hopt Hnull].
           apply negb_false_iff, isOptional_spec in Hopt.
           apply not_nullish_false in Hnull. eauto.
        -- left. by apply negb_false_iff in Hc.
    + intros Hv.
      apply outcome_assigned in Hv as ->.
      split; [|done].
      intros ? [= <-]. split; [done|]. by eapply checkTypeNames_Normal.
  - rewrite outcome_bind, outcome_checkOk.
    destruct (req_ok req) as [ok|].
    + destruct ((negb false || not_nullish w) && negb (truthy (ok w))) eqn:Hc.
      { by rewrite outcome_throwRequirementError. }
      intros Hv.
      apply outcome_assigned in Hv as ->.
      split; [done|]. intros ? [= <-]. left.
      simpl in Hc. by apply negb_false_iff in Hc.
    + intros Hv. split; done.
Qed.

(** X10: what a returned object guarantees.  When [validateOptions] returns
    (requirements with distinct keys), every value [v] of the result stored
    under a key of the requirements passed the checks of that key's
    requirement: if the engine finds an array of type names for it, the
    names are all in the vocabulary and the type of [v] is one of them; and
    if it declares a predicate, the predicate holds of [v], unless [v] is
    [undefined] or [null] and the array holds both ["undefined"] and
    ["null"]. *)
Theorem validated_values_are_accepted
    (options : option (gmap string value))
    (requirements : list (string * requirement))
    (result : gmap string value) (key : string) (req : requirement)
    (v : value) :
  NoDup requirements.*1 → (key, req) ∈ requirements →
  outcome (validateOptions options requirements) = Normal result →
  result !! key = Some v →
  (∀ types, req_is req ≫= engineTypes = Some types →
     getTypeOf v ∈ types ∧ Forall (λ t, t ∈ VALID_TYPES) types)
  ∧ (∀ ok, req_ok req = Some ok →
       truthy (ok v) = true
       ∨ ((v = VUndefined ∨ v = VNull)
          ∧ ∃ types, req_is req ≫= engineTypes = Some types
                     ∧ "undefined" ∈ types ∧ "null" ∈ types)).
Proof.
  intros Hnd Hin Hres Hv.
  destruct (validateLoop_lookup _ _ _ _ _ _ Hnd Hin Hres) as (r & Hr & Hlook).
  rewrite Hv in Hlook. destruct r as [w|]; simpl in Hlook.
  - rewrite lookup_insert_eq in Hlook. injection Hlook as <-.
    by eapply validateKey_accepts.
  - by rewrite lookup_empty in Hlook.
Qed.

Lemma validated_values_are_accepted_witness :
  (∀ types, req_is exports_number ≫= engineTypes = Some types →
     getTypeOf (VNumber 8080) ∈ types ∧ Forall (λ t, t ∈ VALID_TYPES) types)
  ∧ (∀ ok, req_ok exports_number = Some ok →
       truthy (ok (VNumber 8080)) = true
       ∨ ((VNumber 8080 = VUndefined ∨ VNumber 8080 = VNull)
          ∧ ∃ types, req_is exports_number ≫= engineTypes = Some types
                     ∧ "undefined" ∈ types ∧ "null" ∈ types)).
Proof.
  apply (validated_values_are_accepted
           (Some {[ "port" := VNumber 8080 ]})
           [("port", exports_number)]
           {[ "port" := VNumber 8080 ]} "port").
  - repeat constructor. by intros ?%elem_of_nil.
  - by left.
  - vm_compute. reflexivity.
  - reflexivity.
Defined.

(** * Further properties of the combinators *)

(** ** [findTypes] *)

Lemma resolves_truthy h v n a : resolves h v n a → truthy_s v = true.
Proof. by destruct 1. Qed.

Lemma findTypes_step fuel v h :
  findTypes (S fuel) v h
  = (b ← isArray_s v;
     if b : bool then mret v
     else i ← get_is v;
          if truthy_s i then findTypes fuel i else mret v) h.
Proof. done. Qed.

Lemma isArray_s_run l c h :
  h !! l = Some c →
  isArray_s (SRef l) h
  = Some (h, Normal match c with CArray _ => true | CObject _ => false end).
Proof. intros Hl. simpl. by rewrite (St_bind_run _ _ _ _ _ (read_run _ _ _ Hl)). Qed.

Lemma get_is_run o pm h :
  h !! o = Some (CObject pm) →
  get_is (SRef o) h = Some (h, Normal (default SUndefined (pm !! "is"))).
Proof. intros Ho. simpl. by rewrite (St_bind_run _ _ _ _ _ (read_run _ _ _ Ho)). Qed.

Lemma findTypes_resolves h v n a fuel :
  resolves h v n a → (n < fuel)%nat →
  findTypes fuel v h = Some (h, Normal (SRef a)).
Proof.
  intros Hr. revert fuel. induction Hr as [a elems Ha|o pm i n a Ho Hi Hr IH];
    intros fuel Hlt; (destruct fuel as [|fuel]; [lia|]); rewrite findTypes_step.
  - by rewrite (St_bind_run _ _ _ _ _ (isArray_s_run _ _ _ Ha)).
  - rewrite (St_bind_run _ _ _ _ _ (isArray_s_run _ _ _ Ho)).
    rewrite (St_bind_run _ _ _ _ _ (get_is_run _ _ _ Ho)), Hi. simpl.
    rewrite (resolves_truthy _ _ _ _ Hr). apply IH. lia.
Qed.

Lemma findTypes_short h v n a fuel :
  resolves h v n a → (fuel ≤ n)%nat → findTypes fuel v h = None.
Proof.
  intros Hr. revert fuel. induction Hr as [a elems Ha|o pm i n a Ho Hi Hr IH];
    intros fuel Hle; (destruct fuel as [|fuel]; [done|]); [lia|].
  rewrite findTypes_step.
  rewrite (St_bind_run _ _ _ _ _ (isArray_s_run _ _ _ Ho)).
  rewrite (St_bind_run _ _ _ _ _ (get_is_run _ _ _ Ho)), Hi. simpl.
  rewrite (resolves_truthy _ _ _ _ Hr). apply IH. lia.
Qed.

(** X11: [findTypes] follows [.is] through any number of nested
    requirement objects: when the chain from [v] reaches an array after [n]
    objects, [findTypes] returns that array and leaves the store as it is.
    It needs [n + 1] evaluations of the loop condition, no fewer. *)
Theorem findTypes_follows_the_chain
    (h : store) (v : sval) (n : nat) (a : loc) (fuel : nat) :
  resolves h v n a →
  ((n < fuel)%nat → findTypes fuel v h = Some (h, Normal (SRef a)))
  ∧ ((fuel ≤ n)%nat → findTypes fuel v h = None)
  ∧ ∃ elems, h !! a = Some (CArray elems).
Proof.
  intros Hr. split_and!.
  - intros Hlt. by eapply findTypes_resolves.
  - intros Hle. by eapply findTypes_short.
  - induction Hr; eauto.
Qed.

Lemma findTypes_follows_the_chain_witness :
  findTypes 3 (SRef 2%nat)
    [CArray [SString "string"]; CObject {[ "is" := SRef 0%nat ]};
     CObject {[ "is" := SRef 1%nat ]}]
  = Some ([CArray [SString "string"]; CObject {[ "is" := SRef 0%nat ]};
           CObject {[ "is" := SRef 1%nat ]}],
          Normal (SRef 0%nat))
  ∧ findTypes 2 (SRef 2%nat)
      [CArray [SString "string"]; CObject {[ "is" := SRef 0%nat ]};
       CObject {[ "is" := SRef 1%nat ]}]
    = None.
Proof.
  assert (resolves
            [CArray [SString "string"]; CObject {[ "is" := SRef 0%nat ]};
             CObject {[ "is" := SRef 1%nat ]}]
            (SRef 2%nat) 2 0%nat) as Hr.
  { eapply resolves_is; [reflexivity | reflexivity |].
    eapply resolves_is; [reflexivity | reflexivity |].
    eapply resolves_array. reflexivity. }
  split.
  - exact (proj1 (findTypes_follows_the_chain _ _ _ _ 3 Hr)
             (Nat.lt_succ_diag_r 2)).
  - exact (proj1 (proj2 (findTypes_follows_the_chain _ _ _ _ 2 Hr)) (le_n 2)).
Defined.

(** X12: on a requirement object whose [is] is the object itself, the loop
    of [findTypes] has no end: whatever the number of evaluations of the
    loop condition allowed, it has not returned. *)
Theorem findTypes_self_reference
    (h : store) (o : loc) (pm : gmap string sval) (fuel : nat) :
  h !! o = Some (CObject pm) → pm !! "is" = Some (SRef o) →
  findTypes fuel (SRef o) h = None.
Proof.
  intros Ho Hi. induction fuel as [|fuel IH]; [done|].
  rewrite findTypes_step.
  rewrite (St_bind_run _ _ _ _ _ (isArray_s_run _ _ _ Ho)).
  by rewrite (St_bind_run _ _ _ _ _ (get_is_run _ _ _ Ho)), Hi.
Qed.

Lemma findTypes_self_reference_witness :
  findTypes 100 (SRef 0%nat) [CObject {[ "is" := SRef 0%nat ]}] = None.
Proof.
  apply (findTypes_self_reference [CObject {[ "is" := SRef 0%nat ]}] 0%nat
           {[ "is" := SRef 0%nat ]} 100); reflexivity.
Defined.

(** ** [merge] *)

Lemma collect_objects (locs : list loc) (pms : list (gmap string sval))
    (descriptor : gmap string sval) (h : store) :
  Forall2 (λ l pm, h !! l = Some (CObject pm)) locs pms →
  collect (SRef <$> locs) descriptor h
  = Some (h, Normal (foldl (λ d pm, pm ∪ d) descriptor pms)).
Proof.
  intros H. revert descriptor.
  induction H as [|l pm locs pms Hl _ IH]; intros d; [done|].
  simpl. rewrite (St_bind_run _ _ h h pm).
  - apply IH.
  - by rewrite (St_bind_run _ _ _ _ _ (read_run _ _ _ Hl)).
Qed.

Lemma foldl_union_lookup (pms : list (gmap string sval))
    (d : gmap string sval) (k : string) (x : sval) :
  foldl (λ d pm, pm ∪ d) d pms !! k = Some x
  ↔ (∃ i pm, pms !! i = Some pm ∧ pm !! k = Some x
             ∧ ∀ j pm', (i < j)%nat → pms !! j = Some pm' → pm' !! k = None)
    ∨ ((∀ pm, pm ∈ pms → pm !! k = None) ∧ d !! k = Some x).
Proof.
  revert d. induction pms as [|pm pms IH] using rev_ind; intros d.
  - simpl. split.
    + intros Hd. right. split; [|done]. by intros pm []%elem_of_nil.
    + intros [(i & pm & [=] & _)|[_ ?]]; done.
  - rewrite foldl_app. simpl. rewrite lookup_union_Some_raw, IH.
    split.
    + intros [Hpm|[Hnone [(i & pm' & Hi & Hx & Hlater)|[Hall Hd]]]].
      * left. exists (length pms), pm. split_and!; [|done|].
        -- by apply list_lookup_middle.
        -- intros j pm' Hlt Hj. apply lookup_lt_Some in Hj.
           rewrite length_app in Hj. simpl in Hj. lia.
      * left. exists i, pm'. split_and!; [|done|].
        -- by apply lookup_app_l_Some.
        -- intros j pm'' Hlt Hj.
           apply lookup_app_Some in Hj as [Hj|[Hge Hj]]; [by eapply Hlater|].
           destruct (j - length pms)%nat; [|done]. by injection Hj as <-.
      * right. split; [|done]. intros pm' [?| ->%list_elem_of_singleton]%elem_of_app;
          [by apply Hall | done].
    + intros [(i & pm' & Hi & Hx & Hlater)|[Hall Hd]].
      * apply lookup_app_Some in Hi as [Hi|[Hge Hi]].
        -- right. split.
           { apply (Hlater (length pms) pm); [by eapply lookup_lt_Some|].
             by apply list_lookup_middle. }
           left. exists i, pm'. split_and!; [done..|].
           intros j pm'' Hlt Hj. apply (Hlater j pm'' Hlt).
           by apply lookup_app_l_Some.
        -- destruct (i - length pms)%nat; [|done]. injection Hi as <-. by left.
      * right. split; [apply Hall, elem_of_app; right; left|].
        right. split; [|done]. intros pm' Hin. apply Hall, elem_of_app. by left.
Qed.

Lemma merge_objects_run (h : store) (t : loc) (pmt : gmap string sval)
    (properties : list sval) (locs : list loc)
    (pms : list (gmap string sval)) :
  h !! t = Some (CObject pmt) →
  List.filter truthy_s properties = SRef <$> locs →
  Forall2 (λ l pm, h !! l = Some (CObject pm)) locs pms →
  merge (SRef t) properties h
  = Some (<[t := CObject (foldl (λ d pm, pm ∪ d) ∅ pms ∪ pmt)]> h,
          Normal (SRef t)).
Proof.
  intros Ht Hfilter Hobjs. unfold merge. rewrite Hfilter.
  rewrite (St_bind_run _ _ _ _ _ (collect_objects _ _ ∅ _ Hobjs)). simpl.
  rewrite (St_bind_run _ _ _ _ _ (read_run _ _ _ Ht)).
  by rewrite (St_bind_run _ _ _ _ _
                (write_run _ _ _ (lookup_lt_Some _ _ _ Ht))).
Qed.



(** ** [either] *)

Lemma either_one fuel t h a elems :
  findTypes fuel t h = Some (h, Normal (SRef a)) →
  h !! a = Some (CArray elems) →
  either fuel [t] h
  = Some (h ++ [CArray []; CArray elems; CArray (foldl addNew [] elems)],
          Normal (SRef (length h + 2)%nat)).
Proof.
  intros Hf Ha. unfold either.
  rewrite (St_bind_run _ _ h h [SRef a]).
  2:{ cbn -[findTypes]. by rewrite (St_bind_run _ _ _ _ _ Hf). }
  pose proof (lookup_lt_Some _ _ _ Ha) as Hl.
  set (h1 := h ++ [CArray []]).
  set (h2 := h1 ++ [CArray elems]).
  assert (concatApply [SRef a] h = Some (h2, Normal (SRef (length h1))))
    as Hcombined.
  { unfold concatApply.
    rewrite (St_bind_run _ _ h h1 (length h) eq_refl).
    rewrite (St_bind_run _ _ h1 h1 [] eq_refl).
    cbn -[spread].
    rewrite (St_bind_run _ _ h1 h1 [elems]).
    - simpl. by rewrite app_nil_r.
    - rewrite (St_bind_run _ _ h1 h1 elems); [done|].
      apply spread_array. unfold h1. by rewrite lookup_app_l. }
  unfold union. rewrite (St_bind_run _ _ _ _ _ Hcombined).
  rewrite (St_bind_run _ _ h2 h2 elems).
  2:{ apply spread_array. unfold h2. by apply list_lookup_middle. }
  rewrite (St_bind_run _ _ h2 (h2 ++ [CArray []]) (length h2) eq_refl).
  rewrite (St_bind_run _ _ _ _ _
             (reduce_run elems (length h2) [] (h2 ++ [CArray []])
                (list_lookup_middle _ _ _ _ eq_refl))).
  unfold mret, St_ret. f_equal. f_equal.
  - replace (length h2) with (length h2 + 0)%nat at 1 by lia.
    rewrite insert_app_r. unfold h2, h1. by rewrite <- !app_assoc.
  - f_equal. f_equal. unfold h2, h1. rewrite !length_app. simpl. lia.
Qed.





(** ** [required] *)

Lemma required_post_truthy fuel req h h' v :
  required fuel req h = Some (h', Normal v) →
  ∃ a elems, typesOf h' v = Some (a, elems) ∧ h !! a = None
             ∧ Forall (λ x, isTruthyType x = true) elems.
Proof.
  unfold required.
  intros (h0 & r0 & Hfind & H)%St_bind_inv.
  assert (h0 = h) as -> by (eapply readonly_findTypes, Hfind).
  destruct r0 as [found|]; [|by destruct H].
  apply St_bind_inv in H as (h1 & r1 & Htypes & H).
  destruct r1 as [types|]; [|by destruct H].
  assert (∃ elems, h1 = h ++ [CArray elems] ∧ types = SRef (length h)
                   ∧ Forall (λ x, isTruthyType x = true) elems)
    as (elems & -> & -> & Htruthy).
  { destruct (truthy_s found).
    - apply filter_isTruthyType_inv in Htypes as (a & es & _ & _ & -> & ->).
      eexists. split_and!; [done..|].
      apply Forall_forall. by intros x [_ ?]%list_elem_of_In%List.filter_In.
    - apply St_bind_inv in Htypes as (h2 & r2 & [-> ->]%alloc_inv & [= <- <-]).
      eexists. split_and!; [done..|]. repeat constructor. }
  apply St_bind_inv in H as (h2 & r2 & [-> ->]%alloc_inv & H).
  apply St_bind_inv in H as (h3 & r3 & [-> ->]%alloc_inv & H).
  apply merge_inv in H as (d & pm0 & Hcollect & Htarget & -> & ->).
  set (h3 := ((h ++ [CArray elems]) ++ [CObject ∅])
               ++ [CObject {["is" := SRef (length h)]}]) in *.
  assert (h3 !! length ((h ++ [CArray elems]) ++ [CObject ∅])
          = Some (CObject {["is" := SRef (length h)]})) as Hlast.
  { unfold h3. by apply list_lookup_middle. }
  assert (d !! "is" = Some (SRef (length h))) as Hd.
  { simpl in Hcollect. destruct (truthy_s req).
    - simpl in Hcollect.
      apply St_bind_inv in Hcollect as (h4 & r4 & Hown & Hcollect).
      assert (h4 = h3) as -> by (eapply readonly_ownProperties, Hown).
      destruct r4 as [own|]; [|by destruct Hcollect].
      apply (collect_inv_last _ _ _ _ _ _ Hlast) in Hcollect as ->.
      apply lookup_union_Some_l, lookup_singleton_eq.
    - apply (collect_inv_last _ _ _ _ _ _ Hlast) in Hcollect as ->.
      apply lookup_union_Some_l, lookup_singleton_eq. }
  exists (length h), elems. split_and!; [|by apply lookup_ge_None|done].
  eapply typesOf_object.
  - apply list_lookup_insert_eq. by eapply lookup_lt_Some.
  - by apply lookup_union_Some_l.
  - rewrite list_lookup_insert_ne by (rewrite length_app; simpl; lia).
    unfold h3. rewrite <- !app_assoc. by apply list_lookup_middle.
Qed.

(** X16: whatever [required] is called with, when it returns, the array of
    type names of its result is a new array that holds neither [undefined]
    nor [null]. *)
Theorem required_excludes_undefined_and_null
    (fuel : nat) (req : sval) (h h' : store) (v : sval) :
  required fuel req h = Some (h', Normal v) →
  ∃ a elems,
    typesOf h' v = Some (a, elems) ∧ h !! a = None
    ∧ (SString "undefined" ∉ elems) ∧ (SString "null" ∉ elems).
Proof.
  intros (a & elems & Ht & Ha & Htruthy)%required_post_truthy.
  exists a, elems. split_and!; [done..| |];
    intros Hin; by apply (proj1 (Forall_forall _ _) Htruthy) in Hin.
Qed.

Lemma required_excludes_undefined_and_null_witness :
  ∃ h' v,
    required 2 (SRef 1%nat)
      [CArray [SString "string"; SString "undefined"; SString "null"];
       CObject {[ "is" := SRef 0%nat ]}]
    = Some (h', Normal v)
    ∧ ∃ a elems,
        typesOf h' v = Some (a, elems)
        ∧ [CArray [SString "string"; SString "undefined"; SString "null"];
           CObject {[ "is" := SRef 0%nat ]}] !! a = None
        ∧ (SString "undefined" ∉ elems) ∧ (SString "null" ∉ elems).
Proof.
  eexists _, _. split; [vm_compute; reflexivity|].
  apply (required_excludes_undefined_and_null 2 (SRef 1%nat)
           [CArray [SString "string"; SString "undefined"; SString "null"];
            CObject {[ "is" := SRef 0%nat ]}]).
  vm_compute. reflexivity.
Defined.

Lemma required_run fuel o pm n a elems h :
  h !! o = Some (CObject pm) → resolves h (SRef o) n a →
  h !! a = Some (CArray elems) → (n < fuel)%nat →
  ∃ h' r t pm',
    required fuel (SRef o) h = Some (h', Normal (SRef r))
    ∧ h !! r = None ∧ h !! t = None
    ∧ h' !! r = Some (CObject pm') ∧ pm' !! "is" = Some (SRef t)
    ∧ h' !! t = Some (CArray (List.filter isTruthyType elems))
    ∧ (∀ k, k ≠ "is" → pm' !! k = pm !! k).
Proof.
  intros Ho Hr Ha Hn.
  pose proof (findTypes_resolves _ _ _ _ _ Hr Hn) as Hf.
  pose proof (lookup_lt_Some _ _ _ Ho) as Hlo.
  set (h1 := h ++ [CArray (List.filter isTruthyType elems)]).
  set (h2 := h1 ++ [CObject ∅]).
  set (h3 := h2 ++ [CObject {["is" := SRef (length h)]}]).
  set (merged := foldl (λ d pm, pm ∪ d) ∅
                   [pm; ({["is" := SRef (length h)]} : gmap string sval)]
                 ∪ (∅ : gmap string sval)).
  assert (length h1 = length h + 1)%nat as Hl1.
  { unfold h1. rewrite length_app. simpl. lia. }
  assert (length h2 = length h + 2)%nat as Hl2.
  { unfold h2. rewrite length_app. simpl. lia. }
  assert (h3 !! length h1 = Some (CObject ∅)) as Ht3.
  { unfold h3. rewrite lookup_app_l by (rewrite Hl2; lia).
    unfold h2. by apply list_lookup_middle. }
  assert (h3 !! o = Some (CObject pm)) as Ho3.
  { unfold h3, h2, h1. rewrite !lookup_app_l; [done|lia|..].
    - rewrite length_app. lia.
    - rewrite !length_app. lia. }
  assert (h3 !! length h2 = Some (CObject {["is" := SRef (length h)]})) as Hl3.
  { unfold h3. by apply list_lookup_middle. }
  exists (<[length h1 := CObject merged]> h3), (length h1), (length h), merged.
  split_and!.
  - unfold required.
    rewrite (St_bind_run _ _ _ _ _ Hf). simpl.
    rewrite (St_bind_run _ _ _ _ _ (filter_isTruthyType_run _ _ _ Ha)).
    rewrite (St_bind_run _ _ h1 h2 (length h1) eq_refl).
    rewrite (St_bind_run _ _ h2 h3 (length h2) eq_refl).
    apply (merge_objects_run h3 (length h1) ∅
             [SRef o; SRef (length h2)] [o; length h2]
             [pm; {["is" := SRef (length h)]}] Ht3 eq_refl).
    repeat constructor; done.
  - apply lookup_ge_None. lia.
  - apply lookup_ge_None. lia.
  - apply list_lookup_insert_eq. by eapply lookup_lt_Some.
  - unfold merged. simpl.
    apply lookup_union_Some_l, lookup_union_Some_l, lookup_singleton_eq.
  - rewrite list_lookup_insert_ne by lia.
    unfold h3. rewrite lookup_app_l by lia.
    unfold h2. rewrite lookup_app_l by lia.
    unfold h1. by apply list_lookup_middle.
  - intros k Hk. unfold merged. simpl.
    rewrite (lookup_union_l _ ∅) by apply lookup_empty.
    rewrite lookup_union_r by by rewrite lookup_singleton_ne.
    by rewrite lookup_union_l by apply lookup_empty.
Qed.



(** X18: the vocabulary is not what [required] falls back on for a
    requirement object without accepted types.  On an object with no
    truthy [is] (and no [filter] property) and on [null] and [undefined]
    it throws a [TypeError] and allocates nothing; only for another falsy
    argument does its result accept the eight names of the vocabulary
    other than [undefined] and [null]. *)
Theorem required_without_types
    (fuel : nat) (h : store) :
  (∀ o pm, h !! o = Some (CObject pm) →
           truthy_s (default SUndefined (pm !! "is")) = false →
           pm !! "filter" = None →
           ∃ message, required (S fuel) (SRef o) h
                      = Some (h, Throw (TypeErrorObj message)))
  ∧ (∀ req, req = SNull ∨ req = SUndefined →
            ∃ message, required (S fuel) req h
                       = Some (h, Throw (TypeErrorObj message)))
  ∧ (∀ req, req = SBoolean false ∨ req = SNumber 0 ∨ req = SString EmptyString →
            ∃ h' r t,
              required (S fuel) req h = Some (h', Normal (SRef r))
              ∧ h' !! r = Some (CObject {[ "is" := SRef t ]})
              ∧ h' !! t
                = Some (CArray (SString <$>
                                  ["array"; "boolean"; "function"; "number";
                                   "object"; "regexp"; "string"; "symbol"]))).
Proof.
  split_and!.
  - intros o pm Ho His Hfilter. eexists. unfold required.
    assert (findTypes (S fuel) (SRef o) h = Some (h, Normal (SRef o))) as Hf.
    { rewrite findTypes_step.
      rewrite (St_bind_run _ _ _ _ _ (isArray_s_run _ _ _ Ho)).
      rewrite (St_bind_run _ _ _ _ _ (get_is_run _ _ _ Ho)). by rewrite His. }
    rewrite (St_bind_run _ _ _ _ _ Hf).
    assert (filter_isTruthyType (SRef o) h
            = Some (h, Throw (TypeErrorObj "filter is not a function"))) as Hth.
    { unfold filter_isTruthyType.
      rewrite (St_bind_run _ _ _ _ _ (read_run _ _ _ Ho)). by rewrite Hfilter. }
    change (truthy_s (SRef o)) with true. cbv iota.
    by rewrite (St_bind_eq _ _ _ _ _ Hth).
  - intros req [-> | ->]; by eexists.
  - intros req Hreq.
    set (names := SString <$> ["array"; "boolean"; "function"; "number";
                               "object"; "regexp"; "string"; "symbol"]).
    set (h1 := h ++ [CArray names]).
    set (h2 := h1 ++ [CObject ∅]).
    set (h3 := h2 ++ [CObject {["is" := SRef (length h)]}]).
    assert (length h1 = length h + 1)%nat as Hl1.
    { unfold h1. rewrite length_app. simpl. lia. }
    assert (length h2 = length h + 2)%nat as Hl2.
    { unfold h2. rewrite length_app. simpl. lia. }
    assert (h3 !! length h1 = Some (CObject ∅)) as Ht3.
    { unfold h3. rewrite lookup_app_l by lia.
      unfold h2. by apply list_lookup_middle. }
    assert (h3 !! length h2 = Some (CObject {["is" := SRef (length h)]})) as Hl3.
    { unfold h3. by apply list_lookup_middle. }
    assert (findTypes (S fuel) req h = Some (h, Normal req)
            ∧ truthy_s req = false) as [Hf Hfalsy].
    { by destruct Hreq as [-> | [-> | ->]]. }
    exists (<[length h1 := CObject {["is" := SRef (length h)]}]> h3),
      (length h1), (length h).
    split_and!.
    + unfold required. rewrite (St_bind_run _ _ _ _ _ Hf), Hfalsy.
      rewrite (St_bind_run _ _ h h1 (SRef (length h)) eq_refl).
      rewrite (St_bind_run _ _ h1 h2 (length h1) eq_refl).
      rewrite (St_bind_run _ _ h2 h3 (length h2) eq_refl).
      rewrite (merge_objects_run h3 (length h1) ∅
                 [req; SRef (length h2)] [length h2]
                 [{["is" := SRef (length h)]}] Ht3).
      * simpl. by rewrite !(right_id_L ∅ (∪)).
      * simpl. by rewrite Hfalsy.
      * by repeat constructor.
    + apply list_lookup_insert_eq. by eapply lookup_lt_Some.
    + rewrite list_lookup_insert_ne by lia.
      unfold h3. rewrite lookup_app_l by lia.
      unfold h2. rewrite lookup_app_l by lia.
      unfold h1. by apply list_lookup_middle.
Qed.

Lemma required_without_types_witness :
  (∃ message, required 1 (SRef 0%nat) [CObject {[ "msg" := SString "m" ]}]
              = Some ([CObject {[ "msg" := SString "m" ]}],
                      Throw (TypeErrorObj message)))
  ∧ ∃ h' r t,
      required 1 (SNumber 0) [] = Some (h', Normal (SRef r))
      ∧ h' !! r = Some (CObject {[ "is" := SRef t ]})
      ∧ h' !! t
        = Some (CArray (SString <$>
                          ["array"; "boolean"; "function"; "number";
                           "object"; "regexp"; "string"; "symbol"])).
Proof.
  split.
  - apply (proj1 (required_without_types 0 [CObject {[ "msg" := SString "m" ]}])
             0%nat {[ "msg" := SString "m" ]}); reflexivity.
  - apply (proj2 (proj2 (required_without_types 0 [])) (SNumber 0)).
    right. left. reflexivity.
Defined.

(** ** [optional] on a requirement without types, and the two combinators
    one after the other *)

Lemma optional_run_fresh fuel req pmt h :
  merge (SRef (length (h ++ [CArray []]))) [req]
    ((h ++ [CArray []]) ++ [CObject {["is" := SRef (length h)]}])
  = Some (<[length (h ++ [CArray []]) := CObject pmt]>
            ((h ++ [CArray []]) ++ [CObject {["is" := SRef (length h)]}]),
          Normal (SRef (length (h ++ [CArray []])))) →
  pmt !! "is" = Some (SRef (length h)) → (2 ≤ fuel)%nat →
  ∃ h' o' a',
    optional fuel req h = Some (h', Normal (SRef o'))
    ∧ h !! o' = None ∧ h !! a' = None
    ∧ h' !! o' = Some (CObject (<["is" := SRef a']> pmt))
    ∧ h' !! a' = Some (CArray [SString "undefined"; SString "null"])
    ∧ (∀ l c, h !! l = Some c → h' !! l = Some c).
Proof.
  intros Hmerge Hpmt Hfuel.
  destruct fuel as [|[|fuel]]; [lia..|].
  set (h2 := (h ++ [CArray []]) ++ [CObject {["is" := SRef (length h)]}]) in *.
  set (t := length (h ++ [CArray []])) in *.
  set (h3 := <[t := CObject pmt]> h2) in *.
  set (h4 := h3 ++ [CArray (List.filter isTruthyType [])]).
  set (h5 := h4 ++ [CArray (List.filter isTruthyType []
                              ++ [SString "undefined"; SString "null"])]).
  assert (length h2 = length h + 2)%nat as Hl2.
  { unfold h2. rewrite !length_app. simpl. lia. }
  assert (t = length h + 1)%nat as Hlt.
  { unfold t. rewrite length_app. simpl. lia. }
  assert (length h3 = length h + 2)%nat as Hl3.
  { unfold h3. by rewrite length_insert. }
  assert (length h4 = length h + 3)%nat as Hl4.
  { unfold h4. rewrite length_app. simpl. lia. }
  assert (h3 !! t = Some (CObject pmt)) as Ht3.
  { unfold h3. apply list_lookup_insert_eq. lia. }
  assert (h3 !! length h = Some (CArray [])) as Ha3.
  { unfold h3, h2. rewrite list_lookup_insert_ne by lia.
    rewrite lookup_app_l by (rewrite length_app; simpl; lia).
    by apply list_lookup_middle. }
  assert (h5 !! t = Some (CObject pmt)) as Ht5.
  { unfold h5, h4. rewrite !lookup_app_l; [done|lia|].
    rewrite length_app. lia. }
  exists (<[t := CObject (<["is" := SRef (length h4)]> pmt)]> h5), t, (length h4).
  split_and!.
  - unfold optional.
    rewrite (St_bind_run _ _ h (h ++ [CArray []]) (length h) eq_refl).
    rewrite (St_bind_run _ _ (h ++ [CArray []]) h2 t eq_refl).
    rewrite (St_bind_run _ _ _ _ _ Hmerge).
    rewrite (St_bind_run _ _ _ _ _ (findTypes_run _ _ _ _ _ _ Ht3 Hpmt Ha3)).
    rewrite (St_bind_run _ _ _ _ _ (filter_isTruthyType_run _ _ _ Ha3)).
    rewrite (St_bind_run _ _ _ _ _
               (concat_run (length h3) (List.filter isTruthyType []) h4
                  (list_lookup_middle _ _ _ _ eq_refl))).
    by rewrite (St_bind_run _ _ _ _ _ (set_is_run _ _ _ _ Ht5)).
  - apply lookup_ge_None. lia.
  - apply lookup_ge_None. lia.
  - apply list_lookup_insert_eq. by eapply lookup_lt_Some.
  - rewrite list_lookup_insert_ne by lia.
    unfold h5. by apply list_lookup_middle.
  - intros l c Hl. pose proof (lookup_lt_Some _ _ _ Hl) as Hlen.
    rewrite list_lookup_insert_ne by lia.
    unfold h5, h4. rewrite !lookup_app_l by (rewrite ?length_app; simpl; lia).
    unfold h3. rewrite list_lookup_insert_ne by lia.
    unfold h2. rewrite !lookup_app_l by (rewrite ?length_app; simpl; lia).
    done.
Qed.

Lemma filter_isTruthyType_twice (elems : list sval) :
  List.filter isTruthyType (List.filter isTruthyType elems)
  = List.filter isTruthyType elems.
Proof.
  induction elems as [|x l IH]; simpl; [done|].
  destruct (isTruthyType x) eqn:Hx; simpl; [|done]. by rewrite Hx, IH.
Qed.






